(** * Resumable chunked upload service: model and verification

    A shallow embedding of the upload backend
    (controllers/uploadController.ts, services/chunkService.ts,
    services/uploadService.ts, services/validationService.ts,
    config/redis.ts, config/storage.ts, utils/errors.ts, types/index.ts).

    Stateful code is written in a state-and-exception monad over a [World]
    that holds the PostgreSQL table, the Redis key space, the local file
    system and the S3 bucket. *)

From Stdlib Require Import ZArith NArith Lia Ascii String List.
From Stdlib Require Import Strings.Byte.
From stdpp Require Import base option list gmap strings pretty sorting.

Local Open Scope string_scope.
Local Open Scope Z_scope.

(** ** types/index.ts *)

Inductive UploadStatus := INIT | UPLOADING | ASSEMBLING | COMPLETED | FAILED.

#[global] Instance UploadStatus_eq_dec : EqDecision UploadStatus.
Proof. solve_decision. Defined.

(** [Buffer]: a sequence of bytes. *)
Abbreviation Buffer := (list byte).

(** [interface UploadSession].  Dates are milliseconds since the epoch;
    [metadata] is the opaque key/value bag. *)
Record UploadSession := mkSession {
  uploadId : string;
  userId : option string;
  fileName : string;
  fileSize : Z;
  fileType : string;
  checksum : option string;
  totalChunks : Z;
  status : UploadStatus;
  filePath : option string;
  metadata : list (string * string);
  createdAt : Z;
  updatedAt : Z;
  expiresAt : Z
}.

(** [interface ChunkMetadata] ([checksum?] is never written by the backend). *)
Record ChunkMetadata := mkChunk {
  cm_uploadId : string;
  cm_chunkIndex : Z;
  cm_path : string;
  cm_size : Z;
  cm_uploadedAt : Z
}.

(** [interface ValidationResult]. *)
Record ValidationResult := mkValidation {
  isValid : bool;
  errors : list string;
  warnings : list string
}.

(** ** utils/errors.ts *)

(** [class AppError]; [details] is only ever [{ missingChunks }]. *)
Record AppError := mkAppError {
  message : string;
  statusCode : Z;
  code : string;
  details : option (list Z)
}.

Definition ValidationError (msg : string) : AppError :=
  mkAppError msg 400 "VALIDATION_ERROR" None.

Definition NotFoundError (msg : string) : AppError :=
  mkAppError msg 404 "NOT_FOUND" None.

Definition ConflictError (msg : string) : AppError :=
  mkAppError msg 409 "CONFLICT" None.

(** What a JavaScript [throw] carries: an [AppError] or a plain [Error]
    (file-system failures). *)
Inductive Thrown :=
  | ThrowApp (e : AppError)
  | ThrowError (msg : string).

(** [toApiError]. *)
Definition toApiError (t : Thrown) : AppError :=
  match t with
  | ThrowApp e => e
  | ThrowError msg =>
      mkAppError (if decide (msg = "") then "An unexpected error occurred" else msg)
                 500 "INTERNAL_ERROR" None
  end.

(** ** config/index.ts *)

Record Config := mkConfig {
  nodeEnv : string;
  s3_endpoint : string;
  chunkSize : Z;
  maxFileSize : Z;
  tempDir : string;
  finalDir : string;
  expiryHours : Z
}.

(** The defaults of [config] (directories as [path.join] normalises them). *)
Definition default_config : Config :=
  {| nodeEnv := "development";
     s3_endpoint := "http://localhost:9000";
     chunkSize := 1048576;
     maxFileSize := 10737418240;
     tempDir := "uploads/temp";
     finalDir := "uploads/final";
     expiryHours := 24 |}.

(** [ChunkService.useS3], set in the constructor. *)
Definition useS3 (cfg : Config) : bool :=
  String.eqb (nodeEnv cfg) "production"
  || negb (String.eqb (s3_endpoint cfg) "http://localhost:9000").

(** ** Template literals and [path.join] *)

(** [`${n}`] for an integer [n]. *)
Definition show (n : Z) : string := pretty n.

(** [path.join(a, b)] for plain path segments: normalisation of [.], [..]
    and empty segments is outside the model, and [plain_paths] below says
    when the path that the code builds is this concatenation.  The
    directories of a [Config] are taken in normal form: [path.join] builds
    the same paths from [./uploads/final] as from [uploads/final]. *)
Definition path_join (a b : string) : string := a +:+ "/" +:+ b.

(** ** config/storage.ts *)

Definition getChunkPath (uploadId : string) (chunkIndex : Z) : string :=
  "temp-chunks/" +:+ uploadId +:+ "/chunk_" +:+ show chunkIndex.

Definition getFinalFilePath (uploadId fileName : string) : string :=
  "datasets/" +:+ uploadId +:+ "/" +:+ uploadId +:+ "_" +:+ fileName.

(** ** config/redis.ts

    Redis holds two families of keys: [chunk:{uploadId}:{chunkIndex}] and
    [upload:{uploadId}].  A chunk key is represented by the pair it is built
    from and a session key by its upload id; values are the records whose
    JSON text the code stores.  Key expiry (the TTL of [setex]) is outside
    the model: the records of a world are those still alive
    ([chunks_live] below), for a positive [expiryHours]. *)

Definition getChunkKey (uploadId : string) (chunkIndex : Z) : string * Z :=
  (uploadId, chunkIndex).

Definition getUploadSessionKey (uploadId : string) : string := uploadId.

(** [getChunkKeysPattern(uploadId)] as the predicate [KEYS] filters with,
    for an id that the pattern [chunk:{uploadId}:*] takes literally and
    that is no prefix of another id in use ([pattern_exact] below). *)
Definition getChunkKeysPattern (uploadId : string) (key : string * Z) : bool :=
  bool_decide (key.1 = uploadId).

(** ** The world the services act on

    Requests to PostgreSQL, Redis and the local file system are taken to
    get through.  S3 requests fail as [s3_outcomes] schedules: those are the
    failures that the services catch and recover from.  The clock only
    feeds the timestamps that the services write. *)

Record World := mkWorld {
  uploads : gmap string UploadSession;             (* PostgreSQL table [uploads] *)
  redis_sessions : gmap string UploadSession;      (* Redis [upload:*] *)
  redis_chunks : gmap (string * Z) ChunkMetadata;  (* Redis [chunk:*] *)
  files : gmap string (list byte);                 (* local file system *)
  bucket : gmap string (list byte);                (* S3 bucket *)
  s3_outcomes : list bool;   (* whether the next S3 requests get through *)
  clock : Z                  (* what [new Date()] reads *)
}.

Definition set_uploads (f : gmap string UploadSession → gmap string UploadSession)
    (w : World) : World :=
  mkWorld (f (uploads w)) (redis_sessions w) (redis_chunks w) (files w)
          (bucket w) (s3_outcomes w) (clock w).

Definition set_redis_sessions
    (f : gmap string UploadSession → gmap string UploadSession) (w : World) : World :=
  mkWorld (uploads w) (f (redis_sessions w)) (redis_chunks w) (files w)
          (bucket w) (s3_outcomes w) (clock w).

Definition set_redis_chunks
    (f : gmap (string * Z) ChunkMetadata → gmap (string * Z) ChunkMetadata)
    (w : World) : World :=
  mkWorld (uploads w) (redis_sessions w) (f (redis_chunks w)) (files w)
          (bucket w) (s3_outcomes w) (clock w).

Definition set_files (f : gmap string (list byte) → gmap string (list byte))
    (w : World) : World :=
  mkWorld (uploads w) (redis_sessions w) (redis_chunks w) (f (files w))
          (bucket w) (s3_outcomes w) (clock w).

Definition set_bucket (f : gmap string (list byte) → gmap string (list byte))
    (w : World) : World :=
  mkWorld (uploads w) (redis_sessions w) (redis_chunks w) (files w)
          (f (bucket w)) (s3_outcomes w) (clock w).

Definition set_s3_outcomes (l : list bool) (w : World) : World :=
  mkWorld (uploads w) (redis_sessions w) (redis_chunks w) (files w)
          (bucket w) l (clock w).

(** ** Promises that may reject: state and exceptions *)

Definition M (A : Type) : Type := World → World * (Thrown + A).

Definition ret {A} (a : A) : M A := λ w, (w, inr a).

Definition bind {A B} (m : M A) (k : A → M B) : M B :=
  λ w, match m w with
       | (w', inl e) => (w', inl e)
       | (w', inr a) => k a w'
       end.

Definition throw {A} (e : Thrown) : M A := λ w, (w, inl e).

(** [try { m } catch (error) { h error }]. *)
Definition try_catch {A} (m : M A) (h : Thrown → M A) : M A :=
  λ w, match m w with
       | (w', inl e) => h e w'
       | (w', inr a) => (w', inr a)
       end.

Definition gets {A} (f : World → A) : M A := λ w, (w, inr (f w)).

Definition modify (f : World → World) : M unit := λ w, (f w, inr tt).

Declare Scope promise_scope.
Delimit Scope promise_scope with promise.
Notation "x <- m ;; k" := (bind m (λ x, k))
  (at level 100, m at next level, right associativity) : promise_scope.
Notation "m ;; k" := (bind m (λ _, k))
  (at level 100, right associativity) : promise_scope.
Local Open Scope promise_scope.

(** [for (const x of l) { body x }]. *)
Fixpoint for_each {A} (l : list A) (body : A → M unit) : M unit :=
  match l with
  | [] => ret tt
  | x :: l' => body x ;; for_each l' body
  end.

(** [new Date()]. *)
Definition new_Date : M Z := gets clock.

(** *** Redis commands *)

Definition redis_get_chunk (key : string * Z) : M (option ChunkMetadata) :=
  gets (λ w, redis_chunks w !! key).

Definition redis_setex_chunk (key : string * Z) (v : ChunkMetadata) : M unit :=
  modify (set_redis_chunks (insert key v)).

(** [KEYS pattern] over the chunk keys. *)
Definition redis_keys (pattern : string * Z → bool) : M (list (string * Z)) :=
  gets (λ w, List.filter pattern (map_to_list (redis_chunks w)).*1).

Definition redis_del_chunks (keys : list (string * Z)) : M unit :=
  modify (set_redis_chunks (λ m, foldr delete m keys)).

Definition redis_get_session (key : string) : M (option UploadSession) :=
  gets (λ w, redis_sessions w !! key).

Definition redis_setex_session (key : string) (v : UploadSession) : M unit :=
  modify (set_redis_sessions (insert key v)).

Definition redis_del_session (key : string) : M unit :=
  modify (set_redis_sessions (delete key)).

(** *** fs-extra *)

(** Directories are implicit in the flat file map. *)
Definition fs_ensureDir (dir : string) : M unit := ret tt.

Definition fs_writeFile (path : string) (data : Buffer) : M unit :=
  modify (set_files (insert path data)).

Definition fs_readFile (path : string) : M Buffer :=
  f <- gets (λ w, files w !! path) ;;
  match f with
  | Some data => ret data
  | None => throw (ThrowError ("ENOENT: no such file or directory, open '" +:+ path +:+ "'"))
  end.

(** [fs.createWriteStream(path)] creates or truncates the file; its
    directory is taken to exist, as it does for the final file of
    [reassembleChunks] when the file name is one path segment. *)
Definition fs_createWriteStream (path : string) : M unit :=
  modify (set_files (insert path [])).

(** [writeStream.write(data)] appends to the file. *)
Definition writeStream_write (path : string) (data : Buffer) : M unit :=
  modify (set_files (λ fs, <[path := (default [] (fs !! path) ++ data)%list]> fs)).

(** [fs.pathExists(dir)] then [fs.remove(dir)]: every file below [dir] goes. *)
Definition fs_remove (dir : string) : M unit :=
  modify (set_files (filter (λ kv, ¬ String.prefix (dir +:+ "/") kv.1 = true))).

(** *** aws-sdk *)

(** The next S3 request gets through or not, as [s3_outcomes] schedules
    (through, once the schedule is used up). *)
Definition s3_request : M unit :=
  λ w, match s3_outcomes w with
       | [] => (w, inr tt)
       | true :: l => (set_s3_outcomes l w, inr tt)
       | false :: l => (set_s3_outcomes l w, inl (ThrowError "S3 request failed"))
       end.

Definition s3_putObject (key : string) (body : Buffer) : M unit :=
  s3_request ;; modify (set_bucket (insert key body)).

Definition s3_getObject (key : string) : M Buffer :=
  s3_request ;;
  o <- gets (λ w, bucket w !! key) ;;
  match o with
  | Some body => ret body
  | None => throw (ThrowError "NoSuchKey: The specified key does not exist.")
  end.

Definition s3_deleteObject (key : string) : M unit :=
  s3_request ;; modify (set_bucket (delete key)).

(** ** services/chunkService.ts *)

(** The value [storeChunk] resolves to. *)
Record StoreResult := mkStoreResult {
  alreadyExists : bool;
  size : Z
}.

Module ChunkService.
Section WithConfig.

Variable cfg : Config.

(** [ChunkService.storeChunk]. *)
Definition storeChunk (uploadId : string) (chunkIndex : Z) (data : Buffer)
    : M StoreResult :=
  let chunkKey := getChunkKey uploadId chunkIndex in
  existingChunk <- redis_get_chunk chunkKey ;;
  match existingChunk with
  | Some metadata => ret (mkStoreResult true (cm_size metadata))
  | None =>
      let tempDir := path_join (tempDir cfg) uploadId in
      let chunkPath := path_join tempDir ("chunk_" +:+ show chunkIndex) in
      fs_ensureDir tempDir ;;
      fs_writeFile chunkPath data ;;
      uploadedAt <- new_Date ;;
      let metadata :=
        mkChunk uploadId chunkIndex chunkPath (Z.of_nat (length data)) uploadedAt in
      redis_setex_chunk chunkKey metadata ;;
      (if useS3 cfg
       then try_catch (s3_putObject (getChunkPath uploadId chunkIndex) data)
                      (λ _, ret tt)
       else ret tt) ;;
      ret (mkStoreResult false (Z.of_nat (length data)))
  end.

(** [ChunkService.getChunkMetadata]. *)
Definition getChunkMetadata (uploadId : string) (chunkIndex : Z)
    : M (option ChunkMetadata) :=
  redis_get_chunk (getChunkKey uploadId chunkIndex).

(** [ChunkService.getChunkIndices]: the index is the run of digits that
    ends the key, after a colon; a key that ends in a negative number does
    not match and is left out.  The result is sorted ascending. *)
Definition getChunkIndices (uploadId : string) : M (list Z) :=
  keys <- redis_keys (getChunkKeysPattern uploadId) ;;
  ret (merge_sort Z.le (List.filter (Z.leb 0) (keys.*2))).

(** [ChunkService.getMissingChunks]. *)
Definition getMissingChunks (uploadId : string) (totalChunks : Z) : M (list Z) :=
  uploadedIndices <- getChunkIndices uploadId ;;
  ret (List.filter (λ i, negb (bool_decide (i ∈ uploadedIndices)))
                   (seqZ 0 totalChunks)).

(** The body of the reassembly loop for chunk [i]. *)
Definition appendChunk (uploadId finalFilePath : string) (i : Z) : M unit :=
  metadata <- getChunkMetadata uploadId i ;;
  match metadata with
  | None => throw (ThrowApp (NotFoundError ("Chunk " +:+ show i +:+ " not found")))
  | Some metadata =>
      chunkData <-
        (if useS3 cfg
         then try_catch (s3_getObject (getChunkPath uploadId i))
                        (λ _, fs_readFile (cm_path metadata))
         else fs_readFile (cm_path metadata)) ;;
      writeStream_write finalFilePath chunkData
  end.

(** [ChunkService.reassembleChunks]. *)
Definition reassembleChunks (uploadId fileName : string) (totalChunks : Z)
    : M string :=
  chunkIndices <- getChunkIndices uploadId ;;
  (if decide (Z.of_nat (length chunkIndices) ≠ totalChunks)
   then missing <- getMissingChunks uploadId totalChunks ;;
        throw (ThrowApp
          (mkAppError ("Cannot reassemble: missing chunks ["
                         +:+ String.concat ", " (show <$> missing) +:+ "]")
                      400 "MISSING_CHUNKS" (Some missing)))
   else ret tt) ;;
  let finalDir := path_join (finalDir cfg) uploadId in
  fs_ensureDir finalDir ;;
  let finalFilePath := path_join finalDir fileName in
  fs_createWriteStream finalFilePath ;;
  for_each (seqZ 0 totalChunks) (appendChunk uploadId finalFilePath) ;;
  (if useS3 cfg
   then try_catch
          (finalFileData <- fs_readFile finalFilePath ;;
           s3_putObject (getFinalFilePath uploadId fileName) finalFileData)
          (λ _, ret tt)
   else ret tt) ;;
  ret finalFilePath.

(** [ChunkService.cleanupChunks].  [Promise.all] issues every delete; a
    failed one is logged and swallowed. *)
Definition cleanupChunks (uploadId : string) : M unit :=
  chunkIndices <- getChunkIndices uploadId ;;
  keys <- redis_keys (getChunkKeysPattern uploadId) ;;
  (if decide (0 < length keys)%nat then redis_del_chunks keys else ret tt) ;;
  fs_remove (path_join (tempDir cfg) uploadId) ;;
  (if useS3 cfg
   then for_each chunkIndices
          (λ index, try_catch (s3_deleteObject (getChunkPath uploadId index))
                              (λ _, ret tt))
   else ret tt).

(** [ChunkService.getChunkCount]. *)
Definition getChunkCount (uploadId : string) : M Z :=
  indices <- getChunkIndices uploadId ;;
  ret (Z.of_nat (length indices)).

End WithConfig.
End ChunkService.

(** ** services/uploadService.ts *)

(** [interface UploadInitRequest]. *)
Record UploadInitRequest := mkInitRequest {
  req_fileName : string;
  req_fileSize : Z;
  req_fileType : string;
  req_checksum : option string;
  req_metadata : option (list (string * string))
}.

(** [interface UploadInitResponse] ([uploadUrl] is the constant route). *)
Record UploadInitResponse := mkInitResponse {
  res_uploadId : string;
  res_chunkSize : Z;
  res_totalChunks : Z;
  res_expiresAt : Z
}.

(** [Math.ceil(a / b)] for a positive divisor, on integers that JavaScript
    holds exactly ([exact_number] below). *)
Definition ceil_div (a b : Z) : Z := (a + b - 1) / b.

(** [value || null] for an optional string. *)
Definition or_null (o : option string) : option string :=
  match o with
  | Some s => if decide (s = "") then None else Some s
  | None => None
  end.

(** The row that [INSERT INTO uploads] writes for a session. *)
Definition row_of_session (s : UploadSession) : UploadSession :=
  mkSession (uploadId s) (or_null (userId s)) (fileName s) (fileSize s)
            (fileType s) (or_null (checksum s)) (totalChunks s) (status s)
            (filePath s) (metadata s) (createdAt s) (updatedAt s) (expiresAt s).

Module UploadService.
Section WithConfig.

Variable cfg : Config.

(** [UploadService.initializeUpload]; [uuid] is what
    [uuidv4().replace(/-/g, '')] returns. *)
Definition initializeUpload (uuid : string) (request : UploadInitRequest)
    (userId : option string) : M UploadInitResponse :=
  (if decide (maxFileSize cfg < req_fileSize request)
   then throw (ThrowApp (ValidationError
          ("File size " +:+ show (req_fileSize request)
             +:+ " exceeds maximum allowed size " +:+ show (maxFileSize cfg))))
   else ret tt) ;;
  let totalChunks := ceil_div (req_fileSize request) (chunkSize cfg) in
  (if decide (totalChunks = 0)
   then throw (ThrowApp (ValidationError "File size must be greater than 0"))
   else ret tt) ;;
  let uploadId := "upl_" +:+ uuid in
  now <- new_Date ;;
  let expiresAt := now + expiryHours cfg * 3600000 in
  let session :=
    mkSession uploadId userId (req_fileName request) (req_fileSize request)
              (req_fileType request) (req_checksum request) totalChunks INIT
              None (default [] (req_metadata request)) now now expiresAt in
  existing <- gets (λ w, uploads w !! uploadId) ;;
  match existing with
  | Some _ => throw (ThrowError "duplicate key value violates unique constraint")
  | None => modify (set_uploads (insert uploadId (row_of_session session)))
  end ;;
  redis_setex_session (getUploadSessionKey uploadId) session ;;
  ret (mkInitResponse uploadId (chunkSize cfg) totalChunks expiresAt).

(** [UploadService.getUploadSession]. *)
Definition getUploadSession (uploadId : string) : M UploadSession :=
  let sessionKey := getUploadSessionKey uploadId in
  cached <- redis_get_session sessionKey ;;
  match cached with
  | Some session => ret session
  | None =>
      row <- gets (λ w, uploads w !! uploadId) ;;
      match row with
      | None => throw (ThrowApp (NotFoundError
                  ("Upload session " +:+ uploadId +:+ " not found")))
      | Some session =>
          redis_setex_session sessionKey session ;;
          ret session
      end
  end.

(** The [UPDATE uploads SET ...] of [updateUploadStatus] on one row;
    [file_path] is set only for a truthy [filePath]. *)
Definition update_row (status : UploadStatus) (now : Z)
    (path : option string) (row : UploadSession) : UploadSession :=
  mkSession (uploadId row) (userId row) (fileName row) (fileSize row)
            (fileType row) (checksum row) (totalChunks row) status
            (match or_null path with
             | Some p => Some p
             | None => filePath row
             end)
            (metadata row) (createdAt row) now (expiresAt row).

(** [UploadService.updateUploadStatus]. *)
Definition updateUploadStatus (uploadId : string) (status : UploadStatus)
    (filePath : option string) : M unit :=
  now <- new_Date ;;
  modify (set_uploads (alter (update_row status now filePath) uploadId)) ;;
  redis_del_session (getUploadSessionKey uploadId).

(** [UploadService.completeUpload]. *)
Definition completeUpload (uploadId filePath : string) : M unit :=
  updateUploadStatus uploadId COMPLETED (Some filePath).

(** [UploadService.failUpload]. *)
Definition failUpload (uploadId : string) : M unit :=
  updateUploadStatus uploadId FAILED None.

(** [UploadService.isUploadExpired].  A session revived from the Redis
    cache carries its dates as the strings of its JSON text, and
    [new Date() > session.expiresAt] is then false; only a session built
    from the row has a [Date] to compare.  [cached] is what
    [getUploadSession] is about to read.  No request handler calls it. *)
Definition isUploadExpired (uploadId : string) : M bool :=
  cached <- redis_get_session (getUploadSessionKey uploadId) ;;
  session <- getUploadSession uploadId ;;
  now <- new_Date ;;
  ret (match cached with
       | Some _ => false
       | None => bool_decide (expiresAt session < now)
       end).

(** The rows [cleanupExpiredUploads] selects. *)
Definition expired_rows (w : World) : list string :=
  (List.filter
     (λ kv : string * UploadSession,
        bool_decide (expiresAt kv.2 < clock w)
        && negb (bool_decide (status kv.2 = COMPLETED))
        && negb (bool_decide (status kv.2 = FAILED)))
     (map_to_list (uploads w))).*1.

(** The loop of [cleanupExpiredUploads], counting the sessions cleaned. *)
Fixpoint cleanupRows (rows : list string) (cleaned : Z) : M Z :=
  match rows with
  | [] => ret cleaned
  | upload_id :: rows' =>
      ok <- try_catch (ChunkService.cleanupChunks cfg upload_id ;;
                       updateUploadStatus upload_id FAILED None ;;
                       ret true)
                      (λ _, ret false) ;;
      cleanupRows rows' (if ok : bool then cleaned + 1 else cleaned)
  end.

(** [UploadService.cleanupExpiredUploads]. *)
Definition cleanupExpiredUploads : M Z :=
  rows <- gets expired_rows ;;
  cleanupRows rows 0.

End WithConfig.
End UploadService.

(** ** Node library functions used by the validation service *)

(** [crypto.createHash('sha256')]: SHA-256 (FIPS 180-4) on 32-bit words. *)
Module SHA256.

Definition mask32 : Z := 0xffffffff.

Definition add32 (a b : Z) : Z := Z.land (a + b) mask32.

Definition rotr (n x : Z) : Z :=
  Z.lor (Z.shiftr x n) (Z.land (Z.shiftl x (32 - n)) mask32).

Definition not32 (x : Z) : Z := Z.lxor x mask32.

Definition Ch (x y z : Z) : Z := Z.lxor (Z.land x y) (Z.land (not32 x) z).

Definition Maj (x y z : Z) : Z :=
  Z.lxor (Z.lxor (Z.land x y) (Z.land x z)) (Z.land y z).

Definition Sigma0 (x : Z) : Z := Z.lxor (Z.lxor (rotr 2 x) (rotr 13 x)) (rotr 22 x).
Definition Sigma1 (x : Z) : Z := Z.lxor (Z.lxor (rotr 6 x) (rotr 11 x)) (rotr 25 x).
Definition sigma0 (x : Z) : Z := Z.lxor (Z.lxor (rotr 7 x) (rotr 18 x)) (Z.shiftr x 3).
Definition sigma1 (x : Z) : Z := Z.lxor (Z.lxor (rotr 17 x) (rotr 19 x)) (Z.shiftr x 10).

(** The round constants are the first 32 bits of the fractional parts of the
    cube roots of the first 64 primes, the initial hash value those of the
    square roots of the first 8 primes. *)
Definition is_prime (n : Z) : bool :=
  forallb (λ d, negb (n mod d =? 0)) (seqZ 2 (n - 2)).

Definition primes : list Z := List.filter is_prime (seqZ 2 310).

(** The integer cube root of [n], built from bit [k - 1] down. *)
Fixpoint root3 (k : nat) (n r : Z) : Z :=
  match k with
  | O => r
  | S k' =>
      let r' := r + 2 ^ Z.of_nat k' in
      root3 k' n (if decide (r' * r' * r' ≤ n) then r' else r)
  end.

Definition K : list Z :=
  Eval vm_compute in (λ p, Z.land (root3 36 (p * 2 ^ 96) 0) mask32) <$> primes.

Definition H0 : list Z :=
  Eval vm_compute in (λ p, Z.land (Z.sqrt (p * 2 ^ 64)) mask32) <$> take 8 primes.

Definition byte_val (b : byte) : Z := Z.of_N (Byte.to_N b).

(** The message followed by the bit 1, zeros, and its length in bits as a
    64-bit big-endian number: a multiple of 64 bytes. *)
Definition pad (msg : list Z) : list Z :=
  let len := Z.of_nat (length msg) in
  let zeros := Z.to_nat ((55 - len) mod 64) in
  let bits := 8 * len in
  (msg ++ 0x80 :: repeat 0 zeros
       ++ ((λ i, Z.land (Z.shiftr bits (8 * (7 - Z.of_nat i))) 0xff) <$> seq 0 8))%list.

(** Big-endian 32-bit words of a byte sequence. *)
Fixpoint words (bs : list Z) : list Z :=
  match bs with
  | b0 :: b1 :: b2 :: b3 :: rest =>
      (Z.shiftl b0 24 + Z.shiftl b1 16 + Z.shiftl b2 8 + b3) :: words rest
  | _ => []
  end.

(** Blocks of 16 words; [n] bounds the number of blocks. *)
Fixpoint blocks (n : nat) (ws : list Z) : list (list Z) :=
  match n, ws with
  | S n', _ :: _ => take 16 ws :: blocks n' (drop 16 ws)
  | _, _ => []
  end.

(** The message schedule, most recent word first. *)
Fixpoint schedule (n : nat) (rev_w : list Z) : list Z :=
  match n with
  | O => rev_w
  | S n' =>
      let w := add32 (add32 (sigma1 (nth 1 rev_w 0)) (nth 6 rev_w 0))
                     (add32 (sigma0 (nth 14 rev_w 0)) (nth 15 rev_w 0)) in
      schedule n' (w :: rev_w)
  end.

Definition round (s : list Z) (kw : Z * Z) : list Z :=
  match s with
  | [a; b; c; d; e; f; g; h] =>
      let t1 := add32 (add32 (add32 h (Sigma1 e)) (add32 (Ch e f g) kw.1)) kw.2 in
      let t2 := add32 (Sigma0 a) (Maj a b c) in
      [add32 t1 t2; a; b; c; add32 d t1; e; f; g]
  | _ => s
  end.

Definition compress (h : list Z) (block : list Z) : list Z :=
  let w := rev (schedule 48 (rev block)) in
  zip_with add32 h (fold_left round (zip K w) h).

Definition word_bytes (w : Z) : list Z :=
  [Z.land (Z.shiftr w 24) 0xff; Z.land (Z.shiftr w 16) 0xff;
   Z.land (Z.shiftr w 8) 0xff; Z.land w 0xff].

Definition digest (msg : Buffer) : list Z :=
  let ws := words (pad (byte_val <$> msg)) in
  fold_left compress (blocks (length ws) ws) H0 ≫= word_bytes.

Definition hex_digit (n : Z) : ascii :=
  ascii_of_nat (Z.to_nat (if decide (n < 10) then 48 + n else 87 + n)).

Fixpoint hex (bs : list Z) : string :=
  match bs with
  | [] => ""
  | b :: bs' => String (hex_digit (b / 16)) (String (hex_digit (b mod 16)) (hex bs'))
  end.

(** [hash.update(data); hash.digest('hex')]. *)
Definition hexdigest (msg : Buffer) : string := hex (digest msg).

End SHA256.

(** [String.prototype.toLowerCase] on ASCII letters. *)
Definition lower_ascii (c : ascii) : ascii :=
  let n := nat_of_ascii c in
  if ((65 <=? n) && (n <=? 90))%nat then ascii_of_nat (n + 32) else c.

Fixpoint toLowerCase (s : string) : string :=
  match s with
  | EmptyString => EmptyString
  | String c s' => String (lower_ascii c) (toLowerCase s')
  end.

(** [String.prototype.endsWith]. *)
Definition endsWith (s suffix : string) : bool :=
  let n := String.length s in
  let m := String.length suffix in
  ((m <=? n)%nat && String.eqb (substring (n - m) m s) suffix)%bool.

(** [content.split('\n')]. *)
Fixpoint split_lines (s : string) : list string :=
  match s with
  | EmptyString => [EmptyString]
  | String c s' =>
      if Ascii.eqb c "010"%char then EmptyString :: split_lines s'
      else match split_lines s' with
           | l :: ls => String c l :: ls
           | [] => [String c EmptyString]
           end
  end.

(** The white space [trim] removes, among the ASCII characters. *)
Definition is_space (c : ascii) : bool :=
  let n := nat_of_ascii c in
  ((n =? 32) || ((9 <=? n) && (n <=? 13)))%nat.

(** [line.trim().length > 0]. *)
Fixpoint nonblank (s : string) : bool :=
  match s with
  | EmptyString => false
  | String c s' => negb (is_space c) || nonblank s'
  end.

(** The scan of [path.extname] (POSIX), from the last character to the
    first; [n] is the number of characters still to visit. *)
Record ExtScan := mkExtScan {
  startDot : Z;
  startPart : Z;
  scan_end : Z;
  matchedSlash : bool;
  preDotState : Z
}.

Fixpoint extname_scan (path : string) (n : nat) (st : ExtScan) : ExtScan :=
  match n with
  | O => st
  | S i =>
      match String.get i path with
      | None => st
      | Some c =>
          if Ascii.eqb c "/"%char then
            if negb (matchedSlash st)
            then mkExtScan (startDot st) (Z.of_nat i + 1) (scan_end st)
                           (matchedSlash st) (preDotState st)
            else extname_scan path i st
          else
            let st1 :=
              if decide (scan_end st = -1)
              then mkExtScan (startDot st) (startPart st) (Z.of_nat i + 1)
                             false (preDotState st)
              else st in
            let st2 :=
              if Ascii.eqb c "."%char then
                if decide (startDot st1 = -1)
                then mkExtScan (Z.of_nat i) (startPart st1) (scan_end st1)
                               (matchedSlash st1) (preDotState st1)
                else if decide (preDotState st1 ≠ 1)
                then mkExtScan (startDot st1) (startPart st1) (scan_end st1)
                               (matchedSlash st1) 1
                else st1
              else if decide (startDot st1 ≠ -1)
              then mkExtScan (startDot st1) (startPart st1) (scan_end st1)
                             (matchedSlash st1) (-1)
              else st1 in
            extname_scan path i st2
      end
  end.

(** [path.extname]. *)
Definition extname (path : string) : string :=
  let st := extname_scan path (String.length path) (mkExtScan (-1) 0 (-1) true 0) in
  if bool_decide (startDot st = -1 ∨ scan_end st = -1 ∨ preDotState st = 0
                  ∨ (preDotState st = 1 ∧ startDot st = scan_end st - 1
                     ∧ startDot st = startPart st + 1))
  then ""
  else substring (Z.to_nat (startDot st))
                 (Z.to_nat (scan_end st - startDot st)) path.

(** [Array.prototype.includes] on strings. *)
Definition includes (l : list string) (s : string) : bool :=
  existsb (String.eqb s) l.

(** A truthy optional string: present and not empty. *)
Definition truthy (o : option string) : bool :=
  match o with
  | Some s => negb (String.eqb s "")
  | None => false
  end.

(** [error instanceof Error ? error.message : 'Unknown error']. *)
Definition error_message (t : Thrown) : string :=
  match t with
  | ThrowApp e => message e
  | ThrowError msg => msg
  end.

(** The text of a file read with the ['utf-8'] encoding, byte for byte. *)
Definition utf8_text (data : Buffer) : string := string_of_list_byte data.

(** ** services/validationService.ts *)

Module ValidationService.
Section WithParser.

(** [JSON.parse(text)]: [None] when the text parses, the message of the
    [SyntaxError] otherwise. *)
Variable JSON_parse : string → option string.

Definition allowedMimeTypes : list string :=
  ["application/json"; "application/jsonl"; "text/json"; "text/csv";
   "text/plain"; "application/octet-stream"].

Definition allowedExtensions : list string :=
  [".json"; ".jsonl"; ".csv"; ".txt"; ".bin"; ".dat"].

Definition valid : ValidationResult := mkValidation true [] [].

Definition invalid (errors : list string) : ValidationResult :=
  mkValidation false errors [].

(** [ValidationService.validateFileType]. *)
Definition validateFileType (fileType fileName : string) : ValidationResult :=
  let errors1 :=
    if negb (includes allowedMimeTypes (toLowerCase fileType))
    then ["File type '" +:+ fileType +:+ "' is not allowed"] else [] in
  let ext := toLowerCase (extname fileName) in
  let errors2 :=
    if negb (includes allowedExtensions ext)
    then ["File extension '" +:+ ext +:+ "' is not allowed"] else [] in
  let errors := (errors1 ++ errors2)%list in
  mkValidation (bool_decide (length errors = 0%nat)) errors [].

(** [ValidationService.validateFileSize]. *)
Definition validateFileSize (fileSize maxSize : Z) : ValidationResult :=
  if decide (fileSize ≤ 0) then invalid ["File size must be greater than 0"]
  else if decide (maxSize < fileSize)
  then invalid ["File size " +:+ show fileSize
                  +:+ " exceeds maximum allowed size " +:+ show maxSize]
  else valid.

(** [ValidationService.calculateChecksum]. *)
Definition calculateChecksum (filePath : string) : M string :=
  data <- fs_readFile filePath ;;
  ret ("sha256:" +:+ SHA256.hexdigest data).

(** [ValidationService.validateChecksum]. *)
Definition validateChecksum (filePath : string) (expectedChecksum : option string)
    : M ValidationResult :=
  try_catch
    (if negb (truthy expectedChecksum)
     then ret (mkValidation true [] ["No checksum provided for validation"])
     else
       actualChecksum <- calculateChecksum filePath ;;
       if negb (String.eqb actualChecksum (default "" expectedChecksum))
       then ret (invalid ["Checksum mismatch. Expected: "
                            +:+ default "" expectedChecksum
                            +:+ ", Actual: " +:+ actualChecksum])
       else ret valid)
    (λ error, ret (invalid ["Failed to validate checksum: " +:+ error_message error])).

(** The errors of the [.jsonl] loop, with 1-based line numbers. *)
Fixpoint jsonl_errors (lines : list string) (i : Z) : list string :=
  match lines with
  | [] => []
  | line :: lines' =>
      match JSON_parse line with
      | None => jsonl_errors lines' (i + 1)
      | Some msg =>
          ("Line " +:+ show (i + 1) +:+ ": Invalid JSON - " +:+ msg)
            :: jsonl_errors lines' (i + 1)
      end
  end.

(** [ValidationService.validateJsonSchema]. *)
Definition validateJsonSchema (filePath : string) : M ValidationResult :=
  try_catch
    (data <- fs_readFile filePath ;;
     let content := utf8_text data in
     let ext := toLowerCase (extname filePath) in
     if String.eqb ext ".json" then
       match JSON_parse content with
       | None => ret valid
       | Some msg => ret (invalid ["Invalid JSON: " +:+ msg])
       end
     else if String.eqb ext ".jsonl" then
       let lines := List.filter nonblank (split_lines content) in
       let errors := jsonl_errors lines 0 in
       ret (mkValidation (bool_decide (length errors = 0%nat)) errors [])
     else ret valid)
    (λ error, ret (invalid ["Failed to validate schema: " +:+ error_message error])).

(** [ValidationService.validateFile]. *)
Definition validateFile (filePath fileType fileName : string)
    (fileSize maxSize : Z) (expectedChecksum : option string)
    : M ValidationResult :=
  let typeValidation := validateFileType fileType fileName in
  let errors1 := if negb (isValid typeValidation) then errors typeValidation else [] in
  let sizeValidation := validateFileSize fileSize maxSize in
  let errors2 := if negb (isValid sizeValidation) then errors sizeValidation else [] in
  errors3 <-
    (if truthy expectedChecksum
     then checksumValidation <- validateChecksum filePath expectedChecksum ;;
          ret (if negb (isValid checksumValidation)
               then errors checksumValidation else [])
     else ret []) ;;
  errors4 <-
    (if endsWith fileName ".json" || endsWith fileName ".jsonl"
     then schemaValidation <- validateJsonSchema filePath ;;
          ret (if negb (isValid schemaValidation)
               then errors schemaValidation else [])
     else ret []) ;;
  let all := (errors1 ++ errors2 ++ errors3 ++ errors4)%list in
  ret (mkValidation (bool_decide (length all = 0%nat)) all []).

End WithParser.
End ValidationService.

(** ** controllers/uploadController.ts *)

(** The body of [POST /api/upload/chunk], which the route's schema restricts
    to integer indices; [data] is the buffer that
    [Buffer.from(data, 'base64')] decodes, which never throws. *)
Record ChunkUploadRequest := mkChunkRequest {
  cr_uploadId : string;
  cr_chunkIndex : Z;
  cr_totalChunks : Z;
  cr_data : Buffer
}.

Inductive ChunkStatus := uploaded | already_uploaded.

#[global] Instance ChunkStatus_eq_dec : EqDecision ChunkStatus.
Proof. solve_decision. Defined.

(** The 200 response of [uploadChunk]; [percentage] is
    [progress_uploaded / progress_total * 100]. *)
Record ChunkUploadResponse := mkChunkResponse {
  resp_chunkIndex : Z;
  resp_status : ChunkStatus;
  progress_uploaded : Z;
  progress_total : Z
}.

(** The 200 response of [completeUpload], without the [aiPipeline] part,
    which never fails the request and touches none of the stores. *)
Record UploadCompleteResponse := mkCompleteResponse {
  done_uploadId : string;
  done_filePath : string
}.

Module UploadController.
Section WithConfig.

Variable cfg : Config.
Variable JSON_parse : string → option string.

(** [UploadController.initializeUpload]; [uuid] is passed on to the
    service, [userId] is what the authentication middleware left on the
    request. *)
Definition initializeUpload (uuid : string) (body : UploadInitRequest)
    (userId : option string) : M UploadInitResponse :=
  let typeValidation :=
    ValidationService.validateFileType (req_fileType body) (req_fileName body) in
  (if negb (isValid typeValidation)
   then throw (ThrowApp (mkAppError (String.concat ", " (errors typeValidation))
                                    400 "VALIDATION_ERROR" None))
   else ret tt) ;;
  let sizeValidation :=
    ValidationService.validateFileSize (req_fileSize body) (maxFileSize cfg) in
  (if negb (isValid sizeValidation)
   then throw (ThrowApp (mkAppError (String.concat ", " (errors sizeValidation))
                                    400 "VALIDATION_ERROR" None))
   else ret tt) ;;
  UploadService.initializeUpload cfg uuid body userId.

(** [UploadController.uploadChunk]; a thrown value is what [next(error)]
    receives. *)
Definition uploadChunk (body : ChunkUploadRequest) : M ChunkUploadResponse :=
  let uploadId := cr_uploadId body in
  let chunkIndex := cr_chunkIndex body in
  session <- UploadService.getUploadSession uploadId ;;
  (if decide (chunkIndex < 0 ∨ totalChunks session ≤ chunkIndex)
   then throw (ThrowApp (mkAppError
          ("Invalid chunk index " +:+ show chunkIndex
             +:+ ". Must be between 0 and " +:+ show (totalChunks session - 1))
          400 "VALIDATION_ERROR" None))
   else ret tt) ;;
  let chunkData := cr_data body in
  result <- ChunkService.storeChunk cfg uploadId chunkIndex chunkData ;;
  (if decide (status session = INIT)
   then UploadService.updateUploadStatus uploadId UPLOADING None
   else ret tt) ;;
  uploadedChunks <- ChunkService.getChunkCount uploadId ;;
  if alreadyExists result
  then ret (mkChunkResponse chunkIndex already_uploaded uploadedChunks
                            (totalChunks session))
  else ret (mkChunkResponse chunkIndex uploaded uploadedChunks
                            (totalChunks session)).

(** [UploadController.completeUpload].  The metadata extraction and the AI
    pipeline only read the final file and never fail the request.
    [cleanupChunks] is started before the response is sent and not awaited,
    with its failure logged: the world the request leaves is the one after
    it has run. *)
Definition completeUpload (uploadId : string) : M UploadCompleteResponse :=
  session <- UploadService.getUploadSession uploadId ;;
  UploadService.updateUploadStatus uploadId ASSEMBLING None ;;
  finalFilePath <-
    try_catch
      (ChunkService.reassembleChunks cfg uploadId (fileName session)
                                     (totalChunks session))
      (λ error, UploadService.failUpload uploadId ;; throw error) ;;
  validation <-
    ValidationService.validateFile JSON_parse finalFilePath (fileType session)
      (fileName session) (fileSize session) (maxFileSize cfg) (checksum session) ;;
  (if negb (isValid validation)
   then UploadService.failUpload uploadId ;;
        throw (ThrowApp (mkAppError
          ("Validation failed: " +:+ String.concat ", " (errors validation))
          400 "VALIDATION_ERROR" None))
   else ret tt) ;;
  UploadService.completeUpload uploadId finalFilePath ;;
  try_catch (ChunkService.cleanupChunks cfg uploadId) (λ _, ret tt) ;;
  ret (mkCompleteResponse uploadId finalFilePath).

End WithConfig.
End UploadController.

(** ** Scenarios and read-only views used by the properties *)

(** [n] calls [storeChunk(uploadId, chunkIndex, data)] in a row, with their
    results. *)
Fixpoint store_many (cfg : Config) (uploadId : string) (chunkIndex : Z)
    (data : Buffer) (n : nat) : M (list StoreResult) :=
  match n with
  | O => ret []
  | S n' =>
      r <- ChunkService.storeChunk cfg uploadId chunkIndex data ;;
      rs <- store_many cfg uploadId chunkIndex data n' ;;
      ret (r :: rs)
  end.

(** The indices [getChunkIndices] reads in a world. *)
Definition chunk_indices (w : World) (uploadId : string) : list Z :=
  merge_sort Z.le
    (List.filter (Z.leb 0)
       ((List.filter (getChunkKeysPattern uploadId)
                     (map_to_list (redis_chunks w)).*1).*2)).

(** The indices [getMissingChunks] reports in a world. *)
Definition missing_chunks (w : World) (uploadId : string) (totalChunks : Z) : list Z :=
  List.filter (λ i, negb (bool_decide (i ∈ chunk_indices w uploadId)))
              (seqZ 0 totalChunks).

(** The session [getUploadSession] resolves to: the cached one, else the row. *)
Definition load (w : World) (uploadId : string) : option UploadSession :=
  match redis_sessions w !! uploadId with
  | Some session => Some session
  | None => uploads w !! uploadId
  end.

(** The world [getUploadSession] leaves: a row read on a cache miss is cached. *)
Definition loaded (w : World) (uploadId : string) : World :=
  match redis_sessions w !! uploadId, uploads w !! uploadId with
  | None, Some session => set_redis_sessions (insert uploadId session) w
  | _, _ => w
  end.

(** The world [updateUploadStatus] leaves. *)
Definition updated (w : World) (uploadId : string) (status : UploadStatus)
    (path : option string) : World :=
  set_redis_sessions (delete uploadId)
    (set_uploads (alter (UploadService.update_row status (clock w) path) uploadId) w).


Definition chunk_path (cfg : Config) (uploadId : string) (chunkIndex : Z) : string :=
  path_join (path_join (tempDir cfg) uploadId) ("chunk_" +:+ show chunkIndex).








(** The world of [completeUpload] when reassembly starts. *)
Definition assembling (w : World) (uploadId : string) : World :=
  updated (loaded w uploadId) uploadId ASSEMBLING None.

(** The world and the outcome of running a request. *)
Definition after {A} (m : M A) (w : World) : World := (m w).1.

Definition outcome {A} (m : M A) (w : World) : Thrown + A := (m w).2.

(** The error of the HTTP response, if the request failed. *)
Definition response_error {A} (m : M A) (w : World) : option AppError :=
  match outcome m w with
  | inl t => Some (toApiError t)
  | inr _ => None
  end.

(** The status of a session as the database has it. *)
Definition stored_status (w : World) (uploadId : string) : option UploadStatus :=
  status <$> uploads w !! uploadId.

Definition set_clock (now : Z) (w : World) : World :=
  mkWorld (uploads w) (redis_sessions w) (redis_chunks w) (files w)
          (bucket w) (s3_outcomes w) now.

(** The record [storeChunk] writes for a fresh chunk. *)
Definition chunk_record (cfg : Config) (uploadId : string) (chunkIndex : Z)
    (data : Buffer) (now : Z) : ChunkMetadata :=
  mkChunk uploadId chunkIndex (chunk_path cfg uploadId chunkIndex)
          (Z.of_nat (length data)) now.

(** The database after the status step of [uploadChunk]. *)
Definition uploads_after_chunk (w : World) (uploadId : string)
    (session : UploadSession) : gmap string UploadSession :=
  if decide (status session = INIT)
  then alter (UploadService.update_row UPLOADING (clock w) None) uploadId (uploads w)
  else uploads w.

(** The session cache after [uploadChunk]. *)
Definition cache_after_chunk (w : World) (uploadId : string)
    (session : UploadSession) : gmap string UploadSession :=
  if decide (status session = INIT)
  then delete uploadId (redis_sessions w)
  else redis_sessions (loaded w uploadId).

(** *** Concrete scenarios: an 11-byte file in chunks of 4 bytes *)

Definition demo_config : Config :=
  mkConfig "development" "http://localhost:9000" 4 1024
           "uploads/temp" "uploads/final" 24.


Definition empty_world : World := mkWorld ∅ ∅ ∅ ∅ ∅ [] 0.

Definition bytes (s : string) : Buffer := list_byte_of_string s.

(** The scenarios upload a [.txt] file, for which [JSON.parse] is never
    called. *)
Definition no_json (text : string) : option string :=
  Some "Unexpected token".

Definition hello_request (expected : option string) : UploadInitRequest :=
  mkInitRequest "hello.txt" 11 "text/plain" expected None.

Definition chunk_request (i : Z) (data : string) : ChunkUploadRequest :=
  mkChunkRequest "upl_abc" i 3 (bytes data).

(** After [POST /init]. *)
Definition session_world (cfg : Config) (expected : option string) : World :=
  after (UploadService.initializeUpload cfg "abc" (hello_request expected) None)
        empty_world.

(** After chunks 2, 0 and 1. *)
Definition uploaded_world (cfg : Config) (expected : option string) : World :=
  after (UploadController.uploadChunk cfg (chunk_request 2 "LD!") ;;
         UploadController.uploadChunk cfg (chunk_request 0 "HELL") ;;
         UploadController.uploadChunk cfg (chunk_request 1 "OWOR"))
        (session_world cfg expected).

(** After chunks 0 and 2 only. *)
Definition gap_world : World :=
  after (UploadController.uploadChunk demo_config (chunk_request 0 "HELL") ;;
         UploadController.uploadChunk demo_config (chunk_request 2 "LD!"))
        (session_world demo_config None).

(** After a successful [POST /complete]. *)
Definition completed_world : World :=
  after (UploadController.completeUpload demo_config no_json "upl_abc")
        (uploaded_world demo_config None).


(** The session past its expiry, after the sweep. *)
Definition swept_world : World :=
  after (UploadService.cleanupExpiredUploads demo_config)
        (set_clock 90000000 gap_world).

(** A session still [INIT] whose chunk 0 is recorded: the state a chunk
    request leaves when its status update fails after [storeChunk]. *)
Definition init_with_chunk_world : World :=
  after (ChunkService.storeChunk demo_config "upl_abc" 0 (bytes "HELL"))
        (session_world demo_config None).



(** The chunks a client cuts a blob into: [n] pieces of [c] bytes, the last
    ones as short as the blob leaves them. *)
Fixpoint split_blob (c n : nat) (B : Buffer) : list Buffer :=
  match n with
  | O => []
  | S n' => take c B :: split_blob c n' (drop c B)
  end.







(** Any sequence of [storeChunk] calls, with their results. *)
Fixpoint store_calls (cfg : Config) (calls : list (string * Z * Buffer))
    : M (list StoreResult) :=
  match calls with
  | [] => ret []
  | (uploadId, chunkIndex, data) :: calls' =>
      r <- ChunkService.storeChunk cfg uploadId chunkIndex data ;;
      rs <- store_calls cfg calls' ;;
      ret (r :: rs)
  end.




(** A row is swept when it is past its expiry and neither COMPLETED nor
    FAILED. *)
Definition sweepable (now : Z) (row : UploadSession) : Prop :=
  expiresAt row < now ∧ status row ≠ COMPLETED ∧ status row ≠ FAILED.

(** *** The range of the model

    The file system is a flat map from path strings to contents and the
    chunk keys of Redis are pairs.  The code and the model agree where the
    paths are joined from plain parts, where the pattern
    [chunk:{uploadId}:*] lists the keys of [uploadId] only, while the chunk
    records are younger than their time to live, and where sizes are exact
    as floating-point numbers.  The properties that depend on it say so with
    the predicates below. *)












(** Two answers for one session that agree on every field but the three
    dates, which a cached session carries as text. *)
Definition same_but_dates (a b : UploadSession) : Prop :=
  uploadId a = uploadId b ∧ userId a = userId b ∧ fileName a = fileName b
  ∧ fileSize a = fileSize b ∧ fileType a = fileType b
  ∧ checksum a = checksum b ∧ totalChunks a = totalChunks b
  ∧ status a = status b ∧ filePath a = filePath b ∧ metadata a = metadata b.

(** * Properties *)

Ltac unfold_m :=
  unfold new_Date, redis_get_chunk, redis_setex_chunk, redis_keys, redis_del_chunks,
    redis_get_session, redis_setex_session, redis_del_session,
    fs_ensureDir, fs_writeFile, fs_readFile, fs_createWriteStream,
    writeStream_write, s3_putObject, s3_getObject, s3_deleteObject in *;
  unfold bind, ret, throw, try_catch, gets, modify in *.

(** ** Storing a chunk *)

Lemma s3_request_cases w :
  ∃ l, (s3_request w = (set_s3_outcomes l w, inr tt)
        ∨ s3_request w = (set_s3_outcomes l w, inl (ThrowError "S3 request failed"))).
Proof.
  unfold s3_request. destruct w as [u rs rc f b o c]; simpl.
  destruct o as [|[] l]; [exists [] | exists l | exists l]; simpl; auto.
Qed.

Lemma storeChunk_present cfg id i p w m :
  redis_chunks w !! (id, i) = Some m →
  ChunkService.storeChunk cfg id i p w = (w, inr (mkStoreResult true (cm_size m))).
Proof.
  intros H. unfold ChunkService.storeChunk, getChunkKey. unfold_m. simpl. rewrite H. done.
Qed.

Lemma storeChunk_absent cfg id i p w :
  redis_chunks w !! (id, i) = None →
  ∃ w', ChunkService.storeChunk cfg id i p w
        = (w', inr (mkStoreResult false (Z.of_nat (length p))))
      ∧ ∃ m, redis_chunks w' !! (id, i) = Some m ∧ cm_size m = Z.of_nat (length p).
Proof.
  intros H. unfold ChunkService.storeChunk, getChunkKey. unfold_m. simpl. rewrite H.
  destruct (useS3 cfg).
  - match goal with |- context [s3_request ?w0] => destruct (s3_request_cases w0) as [l [E|E]]; rewrite E end;
    simpl; eexists; split; try reflexivity; eexists; simpl; rewrite lookup_insert_eq; done.
  - eexists; split; try reflexivity. eexists; simpl; rewrite lookup_insert_eq; done.
Qed.

Lemma store_many_present cfg id i p m n w :
  redis_chunks w !! (id, i) = Some m →
  store_many cfg id i p n w = (w, inr (repeat (mkStoreResult true (cm_size m)) n)).
Proof.
  intros H. induction n as [|n IH]; simpl; [done|].
  unfold bind at 1. rewrite (storeChunk_present _ _ _ _ _ _ H).
  unfold bind at 1. rewrite IH. done.
Qed.

(** Calls of [storeChunk] with the same upload id, index and payload, one
    after the other: the first result, then [alreadyExists] with the recorded
    size, and the world of the first call. *)
Lemma storeChunk_repeated cfg id i p n w :
  ∃ w1 r sz,
    ChunkService.storeChunk cfg id i p w = (w1, inr r)
    ∧ store_many cfg id i p (S n) w
      = (w1, inr (r :: repeat (mkStoreResult true sz) n))
    ∧ cm_size <$> redis_chunks w1 !! (id, i) = Some sz
    ∧ (alreadyExists r = false →
       size r = Z.of_nat (length p) ∧ sz = Z.of_nat (length p)).
Proof.
  destruct (redis_chunks w !! (id, i)) as [m|] eqn:E.
  - exists w, (mkStoreResult true (cm_size m)), (cm_size m).
    pose proof (storeChunk_present cfg id i p w m E) as H1.
    split; [done|]. split; [|split].
    + simpl. unfold bind at 1. rewrite H1. unfold bind at 1.
      rewrite (store_many_present _ _ _ _ _ _ _ E). done.
    + rewrite E. done.
    + simpl. discriminate.
  - destruct (storeChunk_absent cfg id i p w E) as (w' & H1 & m & Hm & Hsz).
    exists w', (mkStoreResult false (Z.of_nat (length p))), (cm_size m).
    split; [done|]. split; [|split].
    + simpl. unfold bind at 1. rewrite H1. unfold bind at 1.
      rewrite (store_many_present _ _ _ _ _ _ _ Hm). done.
    + rewrite Hm. done.
    + simpl. intros _. split; [done|]. done.
Qed.

(** ** The chunk index *)

Lemma getChunkIndices_eq id w :
  ChunkService.getChunkIndices id w = (w, inr (chunk_indices w id)).
Proof. reflexivity. Qed.

Lemma getMissingChunks_eq id n w :
  ChunkService.getMissingChunks id n w = (w, inr (missing_chunks w id n)).
Proof. reflexivity. Qed.

Lemma getChunkCount_eq id w :
  ChunkService.getChunkCount id w = (w, inr (Z.of_nat (length (chunk_indices w id)))).
Proof. reflexivity. Qed.

Lemma elem_of_filter_keys (m : gmap (string * Z) ChunkMetadata) id k :
  k ∈ List.filter (getChunkKeysPattern id) (map_to_list m).*1
  ↔ k.1 = id ∧ is_Some (m !! k).
Proof.
  rewrite list_elem_of_In, filter_In, <- list_elem_of_In.
  unfold getChunkKeysPattern. rewrite bool_decide_eq_true.
  rewrite list_elem_of_fmap. split.
  - intros [([k' v] & -> & Hin) Hid]. split; [done|].
    apply elem_of_map_to_list in Hin. simpl. eauto.
  - intros [Hid [v Hv]]. split; [|done].
    exists (k, v). split; [done|]. by apply elem_of_map_to_list.
Qed.

Lemma elem_of_chunk_indices w id i :
  i ∈ chunk_indices w id ↔ 0 ≤ i ∧ is_Some (redis_chunks w !! (id, i)).
Proof.
  unfold chunk_indices.
  rewrite merge_sort_Permutation, list_elem_of_In, filter_In, <- list_elem_of_In.
  rewrite Z.leb_le, list_elem_of_fmap. split.
  - intros [([id' i'] & -> & Hin) Hi]. apply elem_of_filter_keys in Hin as [Hid Hs].
    simpl in *. by subst.
  - intros [Hi Hs]. split; [|done].
    exists (id, i). split; [done|]. by apply elem_of_filter_keys.
Qed.

Lemma NoDup_chunk_indices w id : NoDup (chunk_indices w id).
Proof.
  unfold chunk_indices. rewrite merge_sort_Permutation.
  apply NoDup_ListNoDup, List.NoDup_filter, NoDup_ListNoDup.
  apply NoDup_fmap_2_strong.
  - intros [a x] [b y] Hx Hy Heq. simpl in Heq. subst.
    apply elem_of_filter_keys in Hx as [Hx _], Hy as [Hy _]. simpl in *. congruence.
  - apply NoDup_ListNoDup, List.NoDup_filter, NoDup_ListNoDup, NoDup_fst_map_to_list.
Qed.



Lemma chunk_indices_in_range_count w id n :
  0 ≤ n →
  (∀ i, is_Some (redis_chunks w !! (id, i)) → 0 ≤ i < n) →
  Z.of_nat (length (chunk_indices w id)) = n →
  chunk_indices w id ≡ₚ seqZ 0 n.
Proof.
  intros Hn Hr Hlen. apply submseteq_length_Permutation.
  - apply NoDup_submseteq; [apply NoDup_chunk_indices|].
    intros i Hi. apply elem_of_chunk_indices in Hi as [_ Hi].
    apply Hr in Hi. apply elem_of_seqZ. lia.
  - rewrite length_seqZ. lia.
Qed.

Lemma elem_of_missing_chunks w id n i :
  i ∈ missing_chunks w id n ↔ 0 ≤ i < n ∧ redis_chunks w !! (id, i) = None.
Proof.
  unfold missing_chunks.
  rewrite list_elem_of_In, filter_In, <- list_elem_of_In, elem_of_seqZ.
  rewrite negb_true_iff, bool_decide_eq_false, elem_of_chunk_indices.
  rewrite eq_None_not_Some. split; [intros [? H]; split; [lia|] | intros [? H]; split; [lia|]].
  - intros Hs. apply H. split; [lia|done].
  - intros [_ Hs]. by apply H.
Qed.

Lemma Sorted_missing_chunks w id n : StronglySorted Z.lt (missing_chunks w id n).
Proof.
  unfold missing_chunks.
  assert (Hs : StronglySorted Z.lt (seqZ 0 n)).
  { unfold seqZ. generalize (Z.to_nat n); intros k. generalize 0%nat at 1; intros s.
    revert s. induction k as [|k IH]; intros s; simpl; constructor.
    - apply IH.
    - apply Forall_forall. intros x Hx. apply list_elem_of_fmap in Hx as (y & -> & Hy).
      apply elem_of_seq in Hy. lia. }
  induction Hs as [|x l Hl IH Hx]; simpl; [constructor|].
  destruct (negb _); [constructor|]; auto.
  apply Forall_forall. intros y Hy.
  apply list_elem_of_In, filter_In in Hy as [Hy _]. apply list_elem_of_In in Hy.
  rewrite Forall_forall in Hx. auto.
Qed.

(** ** Reassembly *)

Lemma getUploadSession_eq id w :
  UploadService.getUploadSession id w =
  match load w id with
  | Some session => (loaded w id, inr session)
  | None => (w, inl (ThrowApp (NotFoundError ("Upload session " +:+ id +:+ " not found"))))
  end.
Proof.
  unfold UploadService.getUploadSession, load, loaded, getUploadSessionKey. unfold_m.
  destruct (redis_sessions w !! id); [done|]. destruct (uploads w !! id); done.
Qed.

Lemma updateUploadStatus_eq id st path w :
  UploadService.updateUploadStatus id st path w = (updated w id st path, inr tt).
Proof. reflexivity. Qed.


Ltac unfold_g :=
  unfold new_Date, redis_get_chunk, redis_setex_chunk, redis_keys, redis_del_chunks,
    redis_get_session, redis_setex_session, redis_del_session,
    fs_ensureDir, fs_writeFile, fs_readFile, fs_createWriteStream,
    writeStream_write, s3_putObject, s3_getObject, s3_deleteObject;
  unfold bind, ret, throw, try_catch, gets, modify;
  unfold set_files, set_bucket, set_uploads, set_redis_chunks, set_redis_sessions;
  simpl.








Lemma s3_request_outcomes w :
  ∃ l r, s3_request w = (set_s3_outcomes l w, r)
       ∧ (s3_outcomes w = [] → l = [] ∧ r = inr tt).
Proof.
  unfold s3_request. destruct w as [u rs rc f b o c]; simpl.
  destruct o as [|[] l]; eexists _, _; (split; [reflexivity|]); done.
Qed.






(** [reassembleChunks] on an incomplete index: the error, and an untouched
    world. *)
Lemma reassembleChunks_missing cfg id name n w :
  Z.of_nat (length (chunk_indices w id)) ≠ n →
  ChunkService.reassembleChunks cfg id name n w =
  (w, inl (ThrowApp (mkAppError
     ("Cannot reassemble: missing chunks ["
        +:+ String.concat ", " (show <$> missing_chunks w id n) +:+ "]")
     400 "MISSING_CHUNKS" (Some (missing_chunks w id n))))).
Proof.
  intros Hn. unfold ChunkService.reassembleChunks.
  unfold bind at 1. rewrite getChunkIndices_eq.
  unfold bind at 1. destruct (decide _); [|done].
  unfold bind at 1. rewrite getMissingChunks_eq. done.
Qed.


(** ** Cleanup *)

Lemma lookup_foldr_delete {A} (m : gmap (string * Z) A) (l : list (string * Z)) k :
  foldr delete m l !! k = if bool_decide (k ∈ l) then None else m !! k.
Proof.
  induction l as [|x l IH].
  - rewrite bool_decide_eq_false_2; [done|]. apply not_elem_of_nil.
  - cbn [foldr]. destruct (decide (x = k)) as [-> | Hne].
    + rewrite lookup_delete_eq, bool_decide_eq_true_2; [done|]. by left.
    + rewrite lookup_delete_ne by done. rewrite IH.
      destruct (decide (k ∈ l)) as [Hin|Hin].
      * rewrite !bool_decide_eq_true_2; [done| by right | done].
      * rewrite !bool_decide_eq_false_2; [done| | done].
        intros [-> | H]%elem_of_cons; done.
Qed.

(** The S3 part of [cleanupChunks]. *)
Lemma s3_delete_chunks id indices : ∀ w,
  ∃ w', for_each indices
          (λ index, try_catch (s3_deleteObject (getChunkPath id index))
                              (λ _, ret tt)) w = (w', inr tt)
      ∧ uploads w' = uploads w ∧ redis_sessions w' = redis_sessions w
      ∧ redis_chunks w' = redis_chunks w ∧ files w' = files w
      ∧ clock w' = clock w
      ∧ (∀ k, (∀ i, i ∈ indices → k ≠ getChunkPath id i) →
              bucket w' !! k = bucket w !! k)
      ∧ (∀ k, bucket w !! k = None → bucket w' !! k = None)
      ∧ (s3_outcomes w = [] →
         s3_outcomes w' = []
         ∧ ∀ i, i ∈ indices → bucket w' !! getChunkPath id i = None).
Proof.
  induction indices as [|i indices IH]; intros w.
  - exists w. split; [done|]. repeat split; try done.
    intros i Hi. by apply elem_of_nil in Hi.
  - assert (H1 : ∃ w1,
        try_catch (s3_deleteObject (getChunkPath id i)) (λ _, ret tt) w = (w1, inr tt)
        ∧ uploads w1 = uploads w ∧ redis_sessions w1 = redis_sessions w
        ∧ redis_chunks w1 = redis_chunks w ∧ files w1 = files w
        ∧ clock w1 = clock w
        ∧ (bucket w1 = bucket w ∨ bucket w1 = delete (getChunkPath id i) (bucket w))
        ∧ (s3_outcomes w = [] →
           s3_outcomes w1 = [] ∧ bucket w1 = delete (getChunkPath id i) (bucket w))).
    { unfold_g. destruct (s3_request_outcomes w) as (l & r & E & Hl). rewrite E.
      unfold set_s3_outcomes. destruct r as [e|[]]; simpl;
        (eexists; split; [reflexivity|]); simpl.
      - do 5 (split; [done|]). split; [by left|].
        intros Ho. by destruct (Hl Ho).
      - do 5 (split; [done|]). split; [by right|].
        intros Ho. by destruct (Hl Ho) as [-> _]. }
    destruct H1 as (w1 & E1 & U1 & R1 & C1 & F1 & K1 & B1 & O1).
    destruct (IH w1) as (w2 & E2 & U2 & R2 & C2 & F2 & K2 & B2 & N2 & O2).
    exists w2. split; [simpl; unfold bind; by rewrite E1|].
    split; [congruence|]. split; [congruence|]. split; [congruence|].
    split; [congruence|]. split; [congruence|]. split; [|split].
    + intros k Hk. rewrite B2 by (intros j Hj; apply Hk; by right).
      destruct B1 as [-> | ->]; [done|].
      apply lookup_delete_ne. intros Heq. by apply (Hk i); [left|].
    + intros k Hk. apply N2. destruct B1 as [-> | ->]; [done|].
      destruct (decide (getChunkPath id i = k)) as [-> | Hne];
        [apply lookup_delete_eq | by rewrite lookup_delete_ne].
    + intros Ho. destruct (O1 Ho) as [Ho1 Hb1]. destruct (O2 Ho1) as [Ho2 Hb2].
      split; [done|]. intros j [-> | Hj]%elem_of_cons; [|by apply Hb2].
      apply N2. rewrite Hb1. apply lookup_delete_eq.
Qed.

Lemma cleanupChunks_run cfg id w :
  ∃ w',
    ChunkService.cleanupChunks cfg id w = (w', inr tt)
    ∧ (∀ i, redis_chunks w' !! (id, i) = None)
    ∧ (∀ id' i, id' ≠ id → redis_chunks w' !! (id', i) = redis_chunks w !! (id', i))
    ∧ (∀ f, files w' !! f
            = if String.prefix (path_join (tempDir cfg) id +:+ "/") f
              then None else files w !! f)
    ∧ uploads w' = uploads w ∧ redis_sessions w' = redis_sessions w
    ∧ clock w' = clock w
    ∧ (∀ k, (∀ i, k ≠ getChunkPath id i) → bucket w' !! k = bucket w !! k)
    ∧ (useS3 cfg = true → s3_outcomes w = [] →
       ∀ i, 0 ≤ i → is_Some (redis_chunks w !! (id, i)) →
            bucket w' !! getChunkPath id i = None)
    ∧ (useS3 cfg = false → bucket w' = bucket w)
    ∧ (s3_outcomes w = [] → s3_outcomes w' = []).
Proof.
  unfold ChunkService.cleanupChunks.
  unfold bind at 1. rewrite getChunkIndices_eq.
  unfold bind at 1. unfold redis_keys at 1, gets at 1.
  set (keys := List.filter _ _).
  set (w1 := (if decide (0 < length keys)%nat then redis_del_chunks keys else ret tt) w).
  assert (H1 : ∃ wa, w1 = (wa, inr tt)
      ∧ redis_chunks wa = foldr delete (redis_chunks w) keys
      ∧ uploads wa = uploads w ∧ redis_sessions wa = redis_sessions w
      ∧ files wa = files w ∧ bucket wa = bucket w
      ∧ s3_outcomes wa = s3_outcomes w ∧ clock wa = clock w).
  { subst w1. destruct (decide _) as [Hk|Hk].
    - eexists. split; [reflexivity|]. by repeat split.
    - exists w. split; [done|]. split; [|by repeat split].
      destruct keys; [done|simpl in Hk; lia]. }
  destruct H1 as (wa & Ea & Ca & Ua & Ra & Fa & Ba & Oa & Ka).
  unfold bind at 1. fold w1. rewrite Ea.
  unfold bind at 1. unfold fs_remove, modify.
  set (wb := set_files _ wa).
  assert (Hkeys : ∀ i, redis_chunks wb !! (id, i) = None).
  { intros i. subst wb. simpl. rewrite Ca, lookup_foldr_delete.
    case_bool_decide as Hin; [done|].
    apply eq_None_not_Some. intros Hs. apply Hin.
    subst keys. by apply elem_of_filter_keys. }
  assert (Hother : ∀ id' i, id' ≠ id →
            redis_chunks wb !! (id', i) = redis_chunks w !! (id', i)).
  { intros id' i Hne. subst wb. simpl. rewrite Ca, lookup_foldr_delete.
    rewrite bool_decide_eq_false_2; [done|]. subst keys.
    intros [H _]%elem_of_filter_keys. done. }
  assert (Hfiles : ∀ f, files wb !! f
            = if String.prefix (path_join (tempDir cfg) id +:+ "/") f
              then None else files w !! f).
  { intros f. subst wb. simpl. rewrite Fa.
    destruct (String.prefix _ f) eqn:Ep.
    - apply map_lookup_filter_None. right. intros x _. simpl. rewrite Ep. by intros H; apply H.
    - destruct (files w !! f) as [x|] eqn:Ef.
      + apply map_lookup_filter_Some. split; [done|]. simpl. by rewrite Ep.
      + apply map_lookup_filter_None. by left. }
  destruct (useS3 cfg) eqn:Es.
  - destruct (s3_delete_chunks id (chunk_indices w id) wb)
      as (w' & E' & U' & R' & C' & F' & K' & B' & N' & O').
    exists w'. split; [exact E'|].
    split; [intros i; by rewrite C'|].
    split; [intros id' i Hne; by rewrite C', Hother|].
    split; [intros f; by rewrite F'|].
    split; [rewrite U'; subst wb; simpl; done|].
    split; [rewrite R'; subst wb; simpl; done|].
    split; [rewrite K'; subst wb; simpl; done|].
    split; [|split; [|split]].
    + intros k Hk. rewrite B' by (intros i _; apply Hk). subst wb; simpl; congruence.
    + intros _ Ho i Hi Hs. apply O'; [subst wb; simpl; congruence|].
      by apply elem_of_chunk_indices.
    + done.
    + intros Ho. apply O'. subst wb; simpl; congruence.
  - exists wb. split; [done|]. split; [done|]. split; [done|]. split; [done|].
    split; [subst wb; simpl; done|]. split; [subst wb; simpl; done|].
    split; [subst wb; simpl; done|].
    split; [intros k _; subst wb; simpl; congruence|].
    split; [done|]. split; [intros _; subst wb; simpl; congruence|].
    intros Ho. subst wb; simpl; congruence.
Qed.

Lemma no_chunk_indices w id :
  (∀ i, redis_chunks w !! (id, i) = None) → chunk_indices w id = [].
Proof.
  intros H. apply elem_of_nil_inv. intros i Hi.
  apply elem_of_chunk_indices in Hi. rewrite H in Hi. by destruct Hi.
Qed.

Lemma no_chunk_keys w id :
  (∀ i, redis_chunks w !! (id, i) = None) →
  List.filter (getChunkKeysPattern id) (map_to_list (redis_chunks w)).*1 = [].
Proof.
  intros H. apply elem_of_nil_inv. intros [id' i] Hi.
  apply elem_of_filter_keys in Hi as [Hid Hs]. simpl in Hid. subst id'.
  rewrite H in Hs. by destruct Hs.
Qed.

(** ** Validation and the start of completion *)

#[local] Arguments String.eqb : simpl never.








Lemma loaded_frame w id :
  uploads (loaded w id) = uploads w ∧ redis_chunks (loaded w id) = redis_chunks w
  ∧ files (loaded w id) = files w ∧ bucket (loaded w id) = bucket w
  ∧ s3_outcomes (loaded w id) = s3_outcomes w ∧ clock (loaded w id) = clock w.
Proof.
  unfold loaded. destruct (redis_sessions w !! id), (uploads w !! id); by repeat split.
Qed.

Lemma assembling_frame w id :
  redis_chunks (assembling w id) = redis_chunks w
  ∧ files (assembling w id) = files w ∧ bucket (assembling w id) = bucket w
  ∧ s3_outcomes (assembling w id) = s3_outcomes w
  ∧ clock (assembling w id) = clock w.
Proof.
  destruct (loaded_frame w id) as (U & C & F & B & O & K).
  unfold assembling, updated. simpl. by repeat split.
Qed.

Lemma chunk_indices_assembling w id id' :
  chunk_indices (assembling w id) id' = chunk_indices w id'.
Proof.
  unfold chunk_indices. by rewrite (proj1 (assembling_frame w id)).
Qed.

Lemma missing_chunks_assembling w id id' n :
  missing_chunks (assembling w id) id' n = missing_chunks w id' n.
Proof.
  unfold missing_chunks. by rewrite chunk_indices_assembling.
Qed.


Lemma updated_status w id st path row :
  uploads w !! id = Some row →
  uploads (updated w id st path) !! id
  = Some (UploadService.update_row st (clock w) path row).
Proof.
  intros H. unfold updated. simpl. by rewrite lookup_alter_eq, H.
Qed.

Lemma updated_cache w id st path : redis_sessions (updated w id st path) !! id = None.
Proof. unfold updated. simpl. apply lookup_delete_eq. Qed.

(** The first two steps of [completeUpload]. *)
Lemma completeUpload_start cfg J id w session :
  load w id = Some session →
  UploadController.completeUpload cfg J id w =
  (finalFilePath <-
     try_catch
       (ChunkService.reassembleChunks cfg id (fileName session) (totalChunks session))
       (λ error, UploadService.failUpload id ;; throw error) ;;
   validation <-
     ValidationService.validateFile J finalFilePath (fileType session)
       (fileName session) (fileSize session) (maxFileSize cfg) (checksum session) ;;
   (if negb (isValid validation)
    then UploadService.failUpload id ;;
         throw (ThrowApp (mkAppError
           ("Validation failed: " +:+ String.concat ", " (errors validation))
           400 "VALIDATION_ERROR" None))
    else ret tt) ;;
   UploadService.completeUpload id finalFilePath ;;
   try_catch (ChunkService.cleanupChunks cfg id) (λ _, ret tt) ;;
   ret (mkCompleteResponse id finalFilePath)) (assembling w id).
Proof.
  intros Hl. unfold UploadController.completeUpload.
  unfold bind at 1. rewrite getUploadSession_eq, Hl.
  unfold bind at 1. rewrite updateUploadStatus_eq. done.
Qed.

Lemma completeUpload_absent cfg J id w :
  load w id = None →
  UploadController.completeUpload cfg J id w =
  (w, inl (ThrowApp (NotFoundError ("Upload session " +:+ id +:+ " not found")))).
Proof.
  intros Hl. unfold UploadController.completeUpload.
  unfold bind at 1. rewrite getUploadSession_eq, Hl. done.
Qed.

(** ** Completion *)

Lemma count_with_gap w id n :
  (∀ i, is_Some (redis_chunks w !! (id, i)) → 0 ≤ i < n) →
  (∃ i, 0 ≤ i < n ∧ redis_chunks w !! (id, i) = None) →
  Z.of_nat (length (chunk_indices w id)) ≠ n.
Proof.
  intros Hr (i & Hi & Hnone) Hlen.
  assert (Hp : chunk_indices w id ≡ₚ seqZ 0 n).
  { apply chunk_indices_in_range_count; [lia|done..]. }
  assert (Hin : i ∈ chunk_indices w id).
  { rewrite Hp. apply elem_of_seqZ. lia. }
  apply elem_of_chunk_indices in Hin as [_ [m Hm]]. congruence.
Qed.

Lemma stored_status_updated w id st path row :
  uploads w !! id = Some row →
  stored_status (updated w id st path) id = Some st.
Proof.
  intros H. unfold stored_status. by rewrite (updated_status _ _ _ _ _ H).
Qed.

Lemma failUpload_eq id w :
  UploadService.failUpload id w = (updated w id FAILED None, inr tt).
Proof. reflexivity. Qed.

Lemma assembling_row w id row :
  uploads w !! id = Some row →
  uploads (assembling w id) !! id
  = Some (UploadService.update_row ASSEMBLING (clock w) None row).
Proof.
  intros H. unfold assembling.
  destruct (loaded_frame w id) as (U & _ & _ & _ & _ & K).
  rewrite (updated_status _ _ _ _ row) by (by rewrite U). by rewrite K.
Qed.

(** C4, as the code has it: completion of a session with a gap fails with
    [MISSING_CHUNKS], whose details are exactly the missing indices in
    ascending order, and the catch block of [completeUpload] marks the
    session [FAILED]. *)
Theorem complete_missing_chunks cfg J id w session row :
  load w id = Some session →
  uploads w !! id = Some row →
  (∀ i, is_Some (redis_chunks w !! (id, i)) → 0 ≤ i < totalChunks session) →
  (∃ i, 0 ≤ i < totalChunks session ∧ redis_chunks w !! (id, i) = None) →
  ∃ w' e,
    UploadController.completeUpload cfg J id w = (w', inl (ThrowApp e))
    ∧ code e = "MISSING_CHUNKS" ∧ statusCode e = 400
    ∧ details e = Some (missing_chunks w id (totalChunks session))
    ∧ StronglySorted Z.lt (missing_chunks w id (totalChunks session))
    ∧ (∀ i, i ∈ missing_chunks w id (totalChunks session)
            ↔ 0 ≤ i < totalChunks session ∧ redis_chunks w !! (id, i) = None)
    ∧ stored_status w' id = Some FAILED.
Proof.
  intros Hl Hrow Hr Hgap.
  pose proof (count_with_gap w id _ Hr Hgap) as Hc.
  rewrite (completeUpload_start cfg J id w session Hl).
  unfold bind at 1. unfold try_catch.
  rewrite reassembleChunks_missing by (by rewrite chunk_indices_assembling).
  unfold bind at 1. rewrite failUpload_eq. unfold throw.
  eexists _, _. split; [reflexivity|]. simpl.
  rewrite missing_chunks_assembling.
  split; [done|]. split; [done|]. split; [done|].
  split; [apply Sorted_missing_chunks|].
  split; [intros i; apply elem_of_missing_chunks|].
  eapply stored_status_updated, assembling_row, Hrow.
Qed.












(** ** Chunk upload *)

Lemma storeChunk_fresh cfg id i data w :
  redis_chunks w !! (id, i) = None →
  ∃ w', ChunkService.storeChunk cfg id i data w
          = (w', inr (mkStoreResult false (Z.of_nat (length data))))
      ∧ redis_chunks w' = <[(id, i) := chunk_record cfg id i data (clock w)]> (redis_chunks w)
      ∧ files w' = <[chunk_path cfg id i := data]> (files w)
      ∧ (bucket w' = bucket w ∨ bucket w' = <[getChunkPath id i := data]> (bucket w))
      ∧ (useS3 cfg = false → bucket w' = bucket w)
      ∧ uploads w' = uploads w ∧ redis_sessions w' = redis_sessions w
      ∧ clock w' = clock w.
Proof.
  intros H. unfold ChunkService.storeChunk, getChunkKey.
  destruct (useS3 cfg); unfold_g; rewrite H.
  - match goal with |- context [s3_request ?w0] =>
      destruct (s3_request_outcomes w0) as (l & r & E & _); rewrite E end.
    unfold set_s3_outcomes. destruct r as [e|[]]; simpl;
      eexists; (split; [reflexivity|]); simpl; repeat split; auto; done.
  - eexists; (split; [reflexivity|]); simpl; repeat split; auto.
Qed.

Lemma updated_frame w id st path :
  redis_chunks (updated w id st path) = redis_chunks w
  ∧ files (updated w id st path) = files w
  ∧ bucket (updated w id st path) = bucket w
  ∧ s3_outcomes (updated w id st path) = s3_outcomes w
  ∧ clock (updated w id st path) = clock w.
Proof. by repeat split. Qed.

Lemma loaded_cache w id session :
  load w id = Some session →
  redis_sessions (loaded w id) = <[id := session]> (redis_sessions w).
Proof.
  unfold load, loaded. intros H.
  destruct (redis_sessions w !! id) eqn:E.
  - inversion H; subst. by rewrite insert_id.
  - rewrite H. done.
Qed.

(** [uploadChunk] for a chunk that is not recorded yet. *)
Lemma uploadChunk_fresh cfg id i tc data w session :
  load w id = Some session →
  0 ≤ i < totalChunks session →
  redis_chunks w !! (id, i) = None →
  ∃ w', UploadController.uploadChunk cfg (mkChunkRequest id i tc data) w
          = (w', inr (mkChunkResponse i uploaded
                        (Z.of_nat (length (chunk_indices w' id)))
                        (totalChunks session)))
      ∧ redis_chunks w' = <[(id, i) := chunk_record cfg id i data (clock w)]> (redis_chunks w)
      ∧ files w' = <[chunk_path cfg id i := data]> (files w)
      ∧ (bucket w' = bucket w ∨ bucket w' = <[getChunkPath id i := data]> (bucket w))
      ∧ uploads w' = uploads_after_chunk w id session
      ∧ redis_sessions w' = cache_after_chunk w id session
      ∧ clock w' = clock w.
Proof.
  intros Hl Hi Hnone. unfold UploadController.uploadChunk. simpl.
  unfold bind at 1. rewrite getUploadSession_eq, Hl.
  unfold bind at 1. rewrite decide_False by lia. unfold ret at 1.
  destruct (loaded_frame w id) as (U1 & C1 & F1 & B1 & O1 & K1).
  destruct (storeChunk_fresh cfg id i data (loaded w id))
    as (w2 & E2 & C2 & F2 & B2 & _ & U2 & R2 & K2).
  { by rewrite C1. }
  unfold bind at 1. rewrite E2. simpl.
  unfold uploads_after_chunk, cache_after_chunk.
  destruct (decide (status session = INIT)).
  - unfold bind at 1. rewrite updateUploadStatus_eq.
    unfold bind at 1. rewrite getChunkCount_eq.
    eexists. split; [reflexivity|]. unfold updated; simpl.
    rewrite C2, F2, U2, R2, K2, C1, F1, U1, K1.
    rewrite (loaded_cache _ _ _ Hl), delete_insert_eq.
    repeat split; try done. destruct B2 as [-> | ->]; rewrite B1; auto.
  - unfold bind at 1. unfold ret at 1.
    unfold bind at 1. rewrite getChunkCount_eq.
    eexists. split; [reflexivity|].
    rewrite C2, F2, U2, R2, K2, C1, F1, U1, K1.
    repeat split; try done. destruct B2 as [-> | ->]; rewrite B1; auto.
Qed.

Lemma chunk_indices_frame w w' id :
  redis_chunks w' = redis_chunks w → chunk_indices w' id = chunk_indices w id.
Proof. intros H. unfold chunk_indices. by rewrite H. Qed.

(** [uploadChunk] for a chunk that is already recorded. *)
Lemma uploadChunk_present cfg id i tc data w session m :
  load w id = Some session →
  0 ≤ i < totalChunks session →
  redis_chunks w !! (id, i) = Some m →
  ∃ w', UploadController.uploadChunk cfg (mkChunkRequest id i tc data) w
          = (w', inr (mkChunkResponse i already_uploaded
                        (Z.of_nat (length (chunk_indices w id)))
                        (totalChunks session)))
      ∧ redis_chunks w' = redis_chunks w
      ∧ files w' = files w
      ∧ bucket w' = bucket w
      ∧ s3_outcomes w' = s3_outcomes w
      ∧ uploads w' = uploads_after_chunk w id session
      ∧ redis_sessions w' = cache_after_chunk w id session
      ∧ clock w' = clock w.
Proof.
  intros Hl Hi Hm. unfold UploadController.uploadChunk. simpl.
  unfold bind at 1. rewrite getUploadSession_eq, Hl.
  unfold bind at 1. rewrite decide_False by lia. unfold ret at 1.
  destruct (loaded_frame w id) as (U1 & C1 & F1 & B1 & O1 & K1).
  unfold bind at 1. rewrite (storeChunk_present _ _ _ _ _ m) by (by rewrite C1).
  simpl. unfold uploads_after_chunk, cache_after_chunk.
  destruct (decide (status session = INIT)).
  - unfold bind at 1. rewrite updateUploadStatus_eq.
    unfold bind at 1. rewrite getChunkCount_eq.
    rewrite (chunk_indices_frame w) by (unfold updated; simpl; exact C1).
    eexists. split; [reflexivity|unfold updated; simpl].
    rewrite C1, F1, U1, K1, B1, O1.
    rewrite (loaded_cache _ _ _ Hl), delete_insert_eq. by repeat split.
  - unfold bind at 1. unfold ret at 1.
    unfold bind at 1. rewrite getChunkCount_eq.
    rewrite (chunk_indices_frame w) by exact C1.
    eexists. split; [reflexivity|]. by repeat split.
Qed.

Lemma uploadChunk_absent cfg body w :
  load w (cr_uploadId body) = None →
  UploadController.uploadChunk cfg body w =
  (w, inl (ThrowApp (NotFoundError
     ("Upload session " +:+ cr_uploadId body +:+ " not found")))).
Proof.
  intros Hl. unfold UploadController.uploadChunk.
  unfold bind at 1. rewrite getUploadSession_eq, Hl. done.
Qed.

(** C5, as the code has it: [uploadChunk] fails with [NOT_FOUND] and leaves
    the world as it is when the session is absent; it checks neither
    [expiresAt] nor the status: for a session that is [COMPLETED], [FAILED]
    or past its expiry, a chunk with a valid index is stored like for any
    other session. *)
Theorem uploadChunk_session_checks cfg id i tc data w :
  (load w id = None →
   UploadController.uploadChunk cfg (mkChunkRequest id i tc data) w
   = (w, inl (ThrowApp (mkAppError ("Upload session " +:+ id +:+ " not found")
                                   404 "NOT_FOUND" None))))
  ∧ (∀ session,
       load w id = Some session →
       status session = COMPLETED ∨ status session = FAILED
         ∨ expiresAt session < clock w →
       0 ≤ i < totalChunks session →
       redis_chunks w !! (id, i) = None →
       ∃ w' resp,
         UploadController.uploadChunk cfg (mkChunkRequest id i tc data) w
           = (w', inr resp)
         ∧ resp_status resp = uploaded
         ∧ redis_chunks w' !! (id, i) = Some (chunk_record cfg id i data (clock w))
         ∧ files w' !! chunk_path cfg id i = Some data).
Proof.
  split.
  - intros Hl. by rewrite uploadChunk_absent.
  - intros session Hl _ Hi Hnone.
    destruct (uploadChunk_fresh cfg id i tc data w session Hl Hi Hnone)
      as (w' & E & C & F & _).
    eexists _, _. split; [exact E|]. simpl. split; [done|].
    rewrite C, F. by rewrite !lookup_insert_eq.
Qed.

(** C6, as the code has it: [uploadChunk] does not compare the length of
    the payload with anything: for a valid index, a payload of any length
    is stored and its length recorded. *)
Theorem uploadChunk_any_length cfg id i tc data w session :
  load w id = Some session →
  0 ≤ i < totalChunks session →
  redis_chunks w !! (id, i) = None →
  ∃ w' resp,
    UploadController.uploadChunk cfg (mkChunkRequest id i tc data) w
      = (w', inr resp)
    ∧ resp_status resp = uploaded
    ∧ cm_size <$> redis_chunks w' !! (id, i) = Some (Z.of_nat (length data))
    ∧ files w' !! chunk_path cfg id i = Some data.
Proof.
  intros Hl Hi Hnone.
  destruct (uploadChunk_fresh cfg id i tc data w session Hl Hi Hnone)
    as (w' & E & C & F & _).
  eexists _, _. split; [exact E|]. simpl. split; [done|].
  rewrite C, F. by rewrite !lookup_insert_eq.
Qed.

(** C8, as the code has it: for a chunk that is already recorded,
    [storeChunk] reports [alreadyExists] with the recorded size and
    [uploadChunk] writes nothing to the chunk index, the files or the
    bucket; the status step of [uploadChunk] does not depend on that
    outcome: a session read as [INIT] is set to [UPLOADING], any other
    session keeps its row. *)
Theorem uploadChunk_already_present cfg id i tc data w session m :
  load w id = Some session →
  0 ≤ i < totalChunks session →
  redis_chunks w !! (id, i) = Some m →
  ChunkService.storeChunk cfg id i data w
    = (w, inr (mkStoreResult true (cm_size m)))
  ∧ ∃ w' resp,
      UploadController.uploadChunk cfg (mkChunkRequest id i tc data) w
        = (w', inr resp)
      ∧ resp_status resp = already_uploaded
      ∧ redis_chunks w' = redis_chunks w
      ∧ files w' = files w
      ∧ bucket w' = bucket w
      ∧ (status session = INIT →
         ∀ row, uploads w !! id = Some row → stored_status w' id = Some UPLOADING)
      ∧ (status session ≠ INIT → uploads w' = uploads w).
Proof.
  intros Hl Hi Hm. split; [by apply storeChunk_present|].
  destruct (uploadChunk_present cfg id i tc data w session m Hl Hi Hm)
    as (w' & E & C & F & B & _ & U & _).
  eexists _, _. split; [exact E|]. simpl. split; [done|].
  split; [done|]. split; [done|]. split; [done|].
  unfold uploads_after_chunk in U. split.
  - intros Hs row Hrow. rewrite decide_True in U by done.
    unfold stored_status. rewrite U, lookup_alter_eq, Hrow. done.
  - intros Hs. by rewrite decide_False in U.
Qed.

(** ** Scenarios *)

Example happy_path :
  outcome (UploadController.completeUpload demo_config no_json "upl_abc")
          (uploaded_world demo_config None)
  = inr (mkCompleteResponse "upl_abc" "uploads/final/upl_abc/hello.txt")
  ∧ files completed_world !! "uploads/final/upl_abc/hello.txt"
    = Some (bytes "HELLOWORLD!")
  ∧ stored_status completed_world "upl_abc" = Some COMPLETED.
Proof. vm_compute. done. Qed.

Example sha256_abc :
  SHA256.hexdigest (bytes "abc")
  = "ba7816bf8f01cfea414140de5dae2223b00361a396177a9cb410ff61f20015ad".
Proof. vm_compute. reflexivity. Qed.


(** C4, counterexample: chunks 0 and 2 of 3; completion reports the gap and
    leaves the session [FAILED], not [UPLOADING]. *)
Lemma gap_completion_fails_session :
  stored_status gap_world "upl_abc" = Some UPLOADING
  ∧ response_error (UploadController.completeUpload demo_config no_json "upl_abc")
                   gap_world
    = Some (mkAppError "Cannot reassemble: missing chunks [1]" 400
                       "MISSING_CHUNKS" (Some [1]))
  ∧ stored_status
      (after (UploadController.completeUpload demo_config no_json "upl_abc") gap_world)
      "upl_abc" = Some FAILED
  ∧ stored_status
      (after (UploadController.completeUpload demo_config no_json "upl_abc") gap_world)
      "upl_abc" ≠ Some UPLOADING.
Proof. vm_compute. repeat split; done. Qed.

(** C5, counterexample: after the expiry sweep the session is [FAILED] and
    expired, and a chunk upload still succeeds. *)
Lemma chunk_accepted_after_sweep :
  stored_status swept_world "upl_abc" = Some FAILED
  ∧ expiresAt <$> load swept_world "upl_abc" = Some 86400000
  ∧ clock swept_world = 90000000
  ∧ redis_chunks swept_world !! ("upl_abc", 1) = None
  ∧ outcome (UploadController.uploadChunk demo_config (chunk_request 1 "OWOR"))
            swept_world
    = inr (mkChunkResponse 1 uploaded 1 3)
  ∧ files (after (UploadController.uploadChunk demo_config (chunk_request 1 "OWOR"))
                 swept_world) !! "uploads/temp/upl_abc/chunk_1"
    = Some (bytes "OWOR").
Proof. vm_compute. repeat split; done. Qed.

(** C6, counterexample: chunk 0 of a session with 4-byte chunks, sent with
    one byte, is stored with size 1. *)
Lemma short_chunk_accepted :
  chunkSize demo_config = 4
  ∧ outcome (UploadController.uploadChunk demo_config (chunk_request 0 "H"))
            (session_world demo_config None)
    = inr (mkChunkResponse 0 uploaded 1 3)
  ∧ cm_size <$> redis_chunks
      (after (UploadController.uploadChunk demo_config (chunk_request 0 "H"))
             (session_world demo_config None)) !! ("upl_abc", 0)
    = Some 1.
Proof. vm_compute. repeat split; done. Qed.


(** C8, counterexample: the chunk is already recorded and the session is
    [INIT]; the request answers [already_uploaded] and the session moves to
    [UPLOADING]. *)
Lemma duplicate_moves_init_session :
  stored_status init_with_chunk_world "upl_abc" = Some INIT
  ∧ is_Some (redis_chunks init_with_chunk_world !! ("upl_abc", 0))
  ∧ outcome (UploadController.uploadChunk demo_config (chunk_request 0 "HELL"))
            init_with_chunk_world
    = inr (mkChunkResponse 0 already_uploaded 1 3)
  ∧ stored_status
      (after (UploadController.uploadChunk demo_config (chunk_request 0 "HELL"))
             init_with_chunk_world) "upl_abc" = Some UPLOADING.
Proof. vm_compute. repeat split; eauto. Qed.



Lemma recorded_indices_in w id l (P : Z → Prop) :
  (map_to_list (redis_chunks w)).*1 = l →
  Forall (λ k : string * Z, k.1 = id → P k.2) l →
  ∀ i, is_Some (redis_chunks w !! (id, i)) → P i.
Proof.
  intros E HP i [m Hm]. rewrite Forall_forall in HP.
  apply (HP (id, i)); [|done]. rewrite <- E. apply list_elem_of_fmap.
  exists (id, i, m). split; [done|]. by apply elem_of_map_to_list.
Qed.

(** On the session with chunks 0 and 2 of 3. *)
Lemma complete_missing_chunks_witness :
  ∃ w' e,
    UploadController.completeUpload demo_config no_json "upl_abc" gap_world
      = (w', inl (ThrowApp e))
    ∧ code e = "MISSING_CHUNKS" ∧ statusCode e = 400
    ∧ details e = Some (missing_chunks gap_world "upl_abc" 3)
    ∧ StronglySorted Z.lt (missing_chunks gap_world "upl_abc" 3)
    ∧ (∀ i, i ∈ missing_chunks gap_world "upl_abc" 3
            ↔ 0 ≤ i < 3 ∧ redis_chunks gap_world !! ("upl_abc", i) = None)
    ∧ stored_status w' "upl_abc" = Some FAILED.
Proof.
  eapply (complete_missing_chunks demo_config no_json "upl_abc" gap_world
            (mkSession "upl_abc" None "hello.txt" 11 "text/plain" None 3 UPLOADING
                       None [] 0 0 86400000)).
  - vm_compute. reflexivity.
  - vm_compute. reflexivity.
  - eapply (recorded_indices_in gap_world "upl_abc"); [vm_compute; reflexivity|].
    repeat (apply List.Forall_cons; [simpl; intros _; lia|]). apply List.Forall_nil.
  - exists 1. split; [simpl; lia | vm_compute; reflexivity].
Defined.











(** On an unknown upload id, and on the swept session, which is [FAILED] and expired. *)
Lemma uploadChunk_session_checks_witness :
  UploadController.uploadChunk demo_config (mkChunkRequest "upl_none" 0 1 (bytes "H"))
    empty_world
  = (empty_world,
     inl (ThrowApp (mkAppError "Upload session upl_none not found" 404 "NOT_FOUND" None)))
  ∧ ∃ w' resp,
      UploadController.uploadChunk demo_config (chunk_request 1 "OWOR") swept_world
        = (w', inr resp)
      ∧ resp_status resp = uploaded
      ∧ redis_chunks w' !! ("upl_abc", 1)
        = Some (chunk_record demo_config "upl_abc" 1 (bytes "OWOR") (clock swept_world))
      ∧ files w' !! chunk_path demo_config "upl_abc" 1 = Some (bytes "OWOR").
Proof.
  split.
  - apply (proj1 (uploadChunk_session_checks demo_config "upl_none" 0 1 (bytes "H")
                    empty_world)).
    vm_compute. reflexivity.
  - eapply (proj2 (uploadChunk_session_checks demo_config "upl_abc" 1 3 (bytes "OWOR")
                     swept_world)
              (mkSession "upl_abc" None "hello.txt" 11 "text/plain" None 3 FAILED
                         None [] 0 90000000 86400000)).
    + vm_compute. reflexivity.
    + right. left. reflexivity.
    + simpl. lia.
    + vm_compute. reflexivity.
Defined.

(** On a one-byte payload for chunk 0 of 4-byte chunks. *)
Lemma uploadChunk_any_length_witness :
  ∃ w' resp,
    UploadController.uploadChunk demo_config (chunk_request 0 "H")
      (session_world demo_config None) = (w', inr resp)
    ∧ resp_status resp = uploaded
    ∧ cm_size <$> redis_chunks w' !! ("upl_abc", 0) = Some 1
    ∧ files w' !! chunk_path demo_config "upl_abc" 0 = Some (bytes "H").
Proof.
  eapply (uploadChunk_any_length demo_config "upl_abc" 0 3 (bytes "H")
            (session_world demo_config None)
            (mkSession "upl_abc" None "hello.txt" 11 "text/plain" None 3 INIT
                       None [] 0 0 86400000)).
  - vm_compute. reflexivity.
  - simpl. lia.
  - vm_compute. reflexivity.
Defined.

(** On the [INIT] session whose chunk 0 is recorded. *)
Lemma uploadChunk_already_present_witness :
  ChunkService.storeChunk demo_config "upl_abc" 0 (bytes "HELL") init_with_chunk_world
    = (init_with_chunk_world, inr (mkStoreResult true 4))
  ∧ ∃ w' resp,
      UploadController.uploadChunk demo_config (chunk_request 0 "HELL")
        init_with_chunk_world = (w', inr resp)
      ∧ resp_status resp = already_uploaded
      ∧ redis_chunks w' = redis_chunks init_with_chunk_world
      ∧ files w' = files init_with_chunk_world
      ∧ bucket w' = bucket init_with_chunk_world
      ∧ (INIT = INIT →
         ∀ row, uploads init_with_chunk_world !! "upl_abc" = Some row →
                stored_status w' "upl_abc" = Some UPLOADING)
      ∧ (INIT ≠ INIT → uploads w' = uploads init_with_chunk_world).
Proof.
  eapply (uploadChunk_already_present demo_config "upl_abc" 0 3 (bytes "HELL")
            init_with_chunk_world
            (mkSession "upl_abc" None "hello.txt" 11 "text/plain" None 3 INIT
                       None [] 0 0 86400000)
            (mkChunk "upl_abc" 0 "uploads/temp/upl_abc/chunk_0" 4 0)).
  - vm_compute. reflexivity.
  - simpl. lia.
  - vm_compute. reflexivity.
Defined.

(** ** The round trip *)




















(** Every chunk that the blob fills has [c] bytes. *)
Lemma split_blob_full c n : ∀ B k,
  (k < n)%nat → (S k * c ≤ length B)%nat →
  length (split_blob c n B !!! k) = c.
Proof.
  induction n as [|n IH]; intros B k Hk Hlen; [lia|].
  destruct k as [|k]; simpl.
  - rewrite length_take. lia.
  - apply IH; [lia|]. rewrite length_drop. lia.
Qed.

(** ** Write-once chunks *)

(** [storeChunk] always returns; it keeps every record of the chunk index
    and leaves one for its own key, whose size it reports. *)
Lemma storeChunk_spec cfg id i p w :
  ∃ w' r m,
    ChunkService.storeChunk cfg id i p w = (w', inr r)
    ∧ (∀ k m', redis_chunks w !! k = Some m' → redis_chunks w' !! k = Some m')
    ∧ redis_chunks w' !! (id, i) = Some m
    ∧ size r = cm_size m
    ∧ (is_Some (redis_chunks w !! (id, i)) → alreadyExists r = true)
    ∧ (alreadyExists r = false → size r = Z.of_nat (length p)).
Proof.
  destruct (redis_chunks w !! (id, i)) as [m|] eqn:E.
  - exists w, (mkStoreResult true (cm_size m)), m.
    split; [by apply storeChunk_present|]. by repeat split.
  - destruct (storeChunk_fresh cfg id i p w E) as (w' & E' & C & _).
    exists w', (mkStoreResult false (Z.of_nat (length p))),
      (chunk_record cfg id i p (clock w)).
    split; [done|]. split; [|split; [|split; [done|split]]].
    + intros k m' Hk. rewrite C, lookup_insert_ne; [done|]. congruence.
    + by rewrite C, lookup_insert_eq.
    + by intros [? ?].
    + done.
Qed.

Lemma store_calls_spec cfg calls : ∀ w,
  ∃ w' rs,
    store_calls cfg calls w = (w', inr rs)
    ∧ length rs = length calls
    ∧ (∀ k m, redis_chunks w !! k = Some m → redis_chunks w' !! k = Some m)
    ∧ (∀ j id i p r,
         calls !! j = Some (id, i, p) → rs !! j = Some r →
         (∃ m, redis_chunks w' !! (id, i) = Some m ∧ size r = cm_size m)
         ∧ (is_Some (redis_chunks w !! (id, i)) → alreadyExists r = true)
         ∧ (alreadyExists r = false → size r = Z.of_nat (length p))).
Proof.
  induction calls as [|[[id0 i0] p0] calls IH]; intros w.
  - exists w, []. split; [done|]. split; [done|]. split; [done|].
    intros j id i p r Hj. by rewrite lookup_nil in Hj.
  - destruct (storeChunk_spec cfg id0 i0 p0 w) as (w1 & r0 & m0 & E0 & K0 & M0 & S0 & A0 & L0).
    destruct (IH w1) as (w' & rs & E & Hlen & K & Hrs).
    exists w', (r0 :: rs). split; [|split; [|split]].
    + simpl. unfold bind at 1. rewrite E0. unfold bind at 1. rewrite E. done.
    + simpl. by rewrite Hlen.
    + intros k m Hk. by apply K, K0.
    + intros [|j] id i p r Hc Hr; simpl in Hc, Hr.
      * inversion Hc; inversion Hr; subst. split; [|done].
        exists m0. split; [by apply K|done].
      * destruct (Hrs j id i p r Hc Hr) as (Hm & Ha & Hl).
        split; [done|]. split; [|done].
        intros [m Hm']. apply Ha. exists m. by apply K0.
Qed.

(** In any sequence of [storeChunk] calls, a call that comes after another
    one with the same upload id and index reports [alreadyExists], with the
    size that the earlier call reported. *)
Lemma store_calls_write_once cfg calls : ∀ w w' rs,
  store_calls cfg calls w = (w', inr rs) →
  ∀ j1 j2 id i p1 p2 r1 r2,
    (j1 < j2)%nat →
    calls !! j1 = Some (id, i, p1) → calls !! j2 = Some (id, i, p2) →
    rs !! j1 = Some r1 → rs !! j2 = Some r2 →
    alreadyExists r2 = true ∧ size r2 = size r1.
Proof.
  induction calls as [|[[id0 i0] p0] calls IH]; intros w w' rs Hrun j1 j2 id i p1 p2 r1 r2 Hlt H1 H2 R1 R2.
  - by rewrite lookup_nil in H1.
  - simpl in Hrun. unfold bind at 1 in Hrun.
    destruct (storeChunk_spec cfg id0 i0 p0 w) as (w1 & r0 & m0 & E0 & K0 & M0 & S0 & A0 & L0).
    rewrite E0 in Hrun. unfold bind at 1 in Hrun.
    destruct (store_calls_spec cfg calls w1) as (w2 & rs' & E & Hlen & K & Hrs).
    rewrite E in Hrun. unfold ret in Hrun. inversion Hrun; subst w' rs. clear Hrun.
    destruct j2 as [|j2]; [lia|]. simpl in H2, R2.
    destruct j1 as [|j1]; simpl in H1, R1.
    + inversion H1; inversion R1; subst.
      destruct (Hrs j2 id i p2 r2 H2 R2) as ((m & Hm & Hs) & Ha & _).
      split; [apply Ha; eauto|].
      apply K in M0. rewrite M0 in Hm. inversion Hm; subst. congruence.
    + eapply (IH w1 w2 rs' E j1 j2); eauto. lia.
Qed.

(** C1: [storeChunk] is idempotent in the upload id, the index and the
    payload.  Calls with the same three, one after the other: only the first
    can report a fresh store, every later one reports [alreadyExists] with
    the recorded size, a fresh store records the length of the payload, and
    the world after any number of repetitions is the world after the first
    call.  In any sequence of [storeChunk] calls, whatever comes in between:
    every call returns, and a call that follows another one for the same
    upload id and index reports [alreadyExists] with the size of the earlier
    one, which is the length of the payload that was stored. *)
Theorem storeChunk_idempotent cfg :
  (∀ id i p n w,
     ∃ w1 r sz,
       ChunkService.storeChunk cfg id i p w = (w1, inr r)
       ∧ store_many cfg id i p (S n) w
         = (w1, inr (r :: repeat (mkStoreResult true sz) n))
       ∧ cm_size <$> redis_chunks w1 !! (id, i) = Some sz
       ∧ (alreadyExists r = false →
          size r = Z.of_nat (length p) ∧ sz = Z.of_nat (length p)))
  ∧ (∀ calls w,
       ∃ w' rs,
         store_calls cfg calls w = (w', inr rs)
         ∧ length rs = length calls
         ∧ ∀ j1 j2 id i p1 p2 r1 r2,
             (j1 < j2)%nat →
             calls !! j1 = Some (id, i, p1) → calls !! j2 = Some (id, i, p2) →
             rs !! j1 = Some r1 → rs !! j2 = Some r2 →
             alreadyExists r2 = true ∧ size r2 = size r1
             ∧ (alreadyExists r1 = false → size r1 = Z.of_nat (length p1))).
Proof.
  split.
  - intros id i p n w. apply storeChunk_repeated.
  - intros calls w.
    destruct (store_calls_spec cfg calls w) as (w' & rs & E & Hlen & _ & Hrs).
    exists w', rs. split; [done|]. split; [done|].
    intros j1 j2 id i p1 p2 r1 r2 Hlt H1 H2 R1 R2.
    destruct (store_calls_write_once cfg calls w w' rs E j1 j2 id i p1 p2 r1 r2)
      as [Ha Hs]; try done.
    split; [done|]. split; [done|].
    by destruct (Hrs j1 id i p1 r1 H1 R1) as (_ & _ & Hl).
Qed.

(** On chunk 0 stored twice, with chunk 1 in between. *)
Lemma storeChunk_idempotent_witness :
  ∃ w' r1 r2 r3,
    store_calls demo_config
      [("upl_abc", 0, bytes "HELL"); ("upl_abc", 1, bytes "OWOR");
       ("upl_abc", 0, bytes "HELL")] empty_world
    = (w', inr [r1; r2; r3])
    ∧ alreadyExists r1 = false
    ∧ alreadyExists r3 = true ∧ size r3 = size r1
    ∧ size r1 = Z.of_nat (length (bytes "HELL")).
Proof.
  destruct (proj2 (storeChunk_idempotent demo_config)
              [("upl_abc", 0, bytes "HELL"); ("upl_abc", 1, bytes "OWOR");
               ("upl_abc", 0, bytes "HELL")] empty_world)
    as (w' & rs & E & Hlen & H).
  destruct rs as [|r1 [|r2 [|r3 [|r4 rs]]]]; try discriminate Hlen.
  exists w', r1, r2, r3. split; [exact E|].
  assert (Hr1 : alreadyExists r1 = false).
  { vm_compute in E. by inversion E. }
  split; [exact Hr1|].
  destruct (H 0%nat 2%nat "upl_abc" 0 (bytes "HELL") (bytes "HELL") r1 r3)
    as (Ha & Hs & Hl); [lia|reflexivity..|].
  split; [exact Ha|]. split; [exact Hs|]. exact (Hl Hr1).
Defined.


(** ** The chunk index, further *)



Lemma filter_split_length {A} (f : A → bool) (l : list A) :
  (length (List.filter f l) + length (List.filter (λ x, negb (f x)) l))%nat
  = length l.
Proof.
  induction l as [|x l IH]; simpl; [done|]. destruct (f x); simpl; lia.
Qed.

Lemma chunk_indices_in_range_filter w id n :
  (∀ i, is_Some (redis_chunks w !! (id, i)) → 0 ≤ i < n) →
  chunk_indices w id
  ≡ₚ List.filter (λ i, bool_decide (i ∈ chunk_indices w id)) (seqZ 0 n).
Proof.
  intros Hr. apply NoDup_Permutation.
  - apply NoDup_chunk_indices.
  - apply NoDup_ListNoDup, List.NoDup_filter, NoDup_ListNoDup, NoDup_seqZ.
  - intros i. rewrite (list_elem_of_In (List.filter _ _)), filter_In.
    rewrite <- list_elem_of_In, bool_decide_eq_true, elem_of_seqZ. split.
    + intros Hi. split; [|done]. apply elem_of_chunk_indices in Hi as [_ Hi].
      apply Hr in Hi. lia.
    + by intros [_ Hi].
Qed.



(** X3: [storeChunk] never fails, whatever S3 does; it leaves the database
    and the session cache alone, and changes at most the record, the local
    file and the bucket object of its own chunk; without S3 in use the
    bucket is not written. *)
Theorem storeChunk_frame cfg id i data w :
  ∃ w' r,
    ChunkService.storeChunk cfg id i data w = (w', inr r)
    ∧ uploads w' = uploads w ∧ redis_sessions w' = redis_sessions w
    ∧ (∀ k, k ≠ (id, i) → redis_chunks w' !! k = redis_chunks w !! k)
    ∧ (∀ f, f ≠ chunk_path cfg id i → files w' !! f = files w !! f)
    ∧ (∀ k, k ≠ getChunkPath id i → bucket w' !! k = bucket w !! k)
    ∧ (useS3 cfg = false → bucket w' = bucket w).
Proof.
  destruct (redis_chunks w !! (id, i)) as [m|] eqn:E.
  - exists w, (mkStoreResult true (cm_size m)).
    split; [by apply storeChunk_present|]. by repeat split.
  - destruct (storeChunk_fresh cfg id i data w E)
      as (w' & E' & C & F & B & N & U & R & _).
    exists w', (mkStoreResult false (Z.of_nat (length data))).
    split; [done|]. split; [done|]. split; [done|]. split; [|split; [|split]].
    + intros k Hk. by rewrite C, lookup_insert_ne.
    + intros f Hf. by rewrite F, lookup_insert_ne.
    + intros k Hk. destruct B as [-> | ->]; [done|]. by rewrite lookup_insert_ne.
    + done.
Qed.



(** X5: [cleanupChunks] is idempotent: a second call right after the first
    succeeds and changes nothing, and issues no S3 request. *)
Theorem cleanupChunks_twice cfg id w :
  ∃ w', ChunkService.cleanupChunks cfg id w = (w', inr tt)
      ∧ ChunkService.cleanupChunks cfg id w' = (w', inr tt).
Proof.
  destruct (cleanupChunks_run cfg id w) as (w' & E & C & _ & F & _).
  exists w'. split; [exact E|].
  unfold ChunkService.cleanupChunks.
  unfold bind at 1. rewrite getChunkIndices_eq, (no_chunk_indices _ _ C).
  unfold bind at 1. unfold redis_keys at 1, gets at 1.
  rewrite (no_chunk_keys _ _ C). simpl.
  assert (Hf : filter (λ kv : string * list byte,
                 ¬ String.prefix (path_join (tempDir cfg) id +:+ "/") kv.1 = true)
                 (files w') = files w').
  { apply map_filter_id. intros f x Hx. simpl. specialize (F f). rewrite Hx in F.
    destruct (String.prefix _ f); [discriminate|done]. }
  unfold fs_remove, bind, ret, modify.
  assert (Hw : set_files (filter (λ kv : string * list byte,
                 ¬ String.prefix (path_join (tempDir cfg) id +:+ "/") kv.1 = true)) w'
               = w').
  { unfold set_files. rewrite Hf. by destruct w'. }
  rewrite Hw. by destruct (useS3 cfg).
Qed.

(** ** Reassembly, further *)











(** ** Sessions *)







(** X10: [getUploadSession] is a read-through cache.  It fails with 404
    NOT_FOUND, changing nothing, exactly when neither Redis nor the
    database knows the id; a cached session is answered as the cache holds
    it, whatever the row says; a success never writes to the database and
    leaves the session in the cache, and a second call changes nothing and
    answers the session again: the same in every field but the three
    dates, which the cache holds as text. *)
Theorem getUploadSession_cache id w :
  (redis_sessions w !! id = None → uploads w !! id = None →
   UploadService.getUploadSession id w
   = (w, inl (ThrowApp (mkAppError ("Upload session " +:+ id +:+ " not found")
                                   404 "NOT_FOUND" None))))
  ∧ (∀ c, redis_sessions w !! id = Some c →
          UploadService.getUploadSession id w = (w, inr c))
  ∧ (∀ w' session,
       UploadService.getUploadSession id w = (w', inr session) →
       uploads w' = uploads w
       ∧ (∃ c, redis_sessions w' !! id = Some c ∧ same_but_dates c session)
       ∧ (∀ id', id' ≠ id → redis_sessions w' !! id' = redis_sessions w !! id')
       ∧ redis_chunks w' = redis_chunks w ∧ files w' = files w
       ∧ bucket w' = bucket w
       ∧ ∃ again, UploadService.getUploadSession id w' = (w', inr again)
                ∧ same_but_dates again session).
Proof.
  split; [|split].
  - intros Hc Hr. rewrite getUploadSession_eq. unfold load. by rewrite Hc, Hr.
  - intros c Hc. rewrite getUploadSession_eq. unfold load, loaded. by rewrite Hc.
  - intros w' session. rewrite getUploadSession_eq.
    destruct (load w id) as [s0|] eqn:Hl; [|discriminate].
    intros [= <- <-].
    destruct (loaded_frame w id) as (U & C & F & B & O & K).
    pose proof (loaded_cache w id s0 Hl) as R.
    assert (Hsame : same_but_dates s0 s0) by (by repeat split).
    split; [done|].
    split; [exists s0; by rewrite R, lookup_insert_eq|].
    split; [intros id' Hne; by rewrite R, lookup_insert_ne|].
    do 3 (split; [done|]).
    exists s0. split; [|done].
    rewrite getUploadSession_eq. unfold load at 1.
    rewrite R, lookup_insert_eq. unfold loaded at 1.
    by rewrite R, lookup_insert_eq.
Qed.

(** X11: reading after writing.  Once [updateUploadStatus] has run on a
    session that has a row, [getUploadSession] answers the row as updated,
    whatever the cache held before: the new status and update time, the
    new file path if a non-empty one was given and the old one otherwise,
    and every other column as it was. *)
Theorem status_read_after_write id st path w row :
  uploads w !! id = Some row →
  ∃ w' session,
    (UploadService.updateUploadStatus id st path ;;
     UploadService.getUploadSession id) w = (w', inr session)
    ∧ status session = st
    ∧ updatedAt session = clock w
    ∧ filePath session
      = (if truthy path then path else filePath row)
    ∧ uploadId session = uploadId row ∧ fileName session = fileName row
    ∧ fileSize session = fileSize row ∧ fileType session = fileType row
    ∧ checksum session = checksum row ∧ totalChunks session = totalChunks row
    ∧ createdAt session = createdAt row ∧ expiresAt session = expiresAt row
    ∧ uploads w' !! id = Some session
    ∧ redis_sessions w' !! id = Some session.
Proof.
  intros Hrow.
  pose proof (updated_status w id st path row Hrow) as Hu.
  pose proof (updated_cache w id st path) as Hc.
  assert (Hl : load (updated w id st path) id
               = Some (UploadService.update_row st (clock w) path row)).
  { unfold load. by rewrite Hc, Hu. }
  unfold bind at 1. rewrite updateUploadStatus_eq.
  rewrite getUploadSession_eq, Hl.
  eexists _, _. split; [reflexivity|]. simpl.
  split; [done|]. split; [done|]. split.
  { destruct path as [p|]; simpl; [|done].
    destruct (decide (p = "")) as [-> | Hne]; [done|].
    apply String.eqb_neq in Hne. by rewrite Hne. }
  do 8 (split; [done|]).
  destruct (loaded_frame (updated w id st path) id) as (U & _).
  split; [by rewrite U|].
  by rewrite (loaded_cache _ _ _ Hl), lookup_insert_eq.
Qed.

Lemma status_read_after_write_witness :
  ∃ w' session,
    (UploadService.updateUploadStatus "upl_abc" COMPLETED (Some "") ;;
     UploadService.getUploadSession "upl_abc") gap_world = (w', inr session)
    ∧ status session = COMPLETED
    ∧ updatedAt session = clock gap_world
    ∧ filePath session = None
    ∧ uploadId session = "upl_abc" ∧ fileName session = "hello.txt"
    ∧ fileSize session = 11 ∧ fileType session = "text/plain"
    ∧ checksum session = None ∧ totalChunks session = 3
    ∧ createdAt session = 0 ∧ expiresAt session = 86400000
    ∧ uploads w' !! "upl_abc" = Some session
    ∧ redis_sessions w' !! "upl_abc" = Some session.
Proof.
  refine (status_read_after_write "upl_abc" COMPLETED (Some "") gap_world
            (mkSession "upl_abc" None "hello.txt" 11 "text/plain" None 3 UPLOADING
                       None [] 0 0 86400000) _).
  vm_compute. reflexivity.
Defined.

(** X12: [updateUploadStatus] never fails and never creates a row: for an
    id without a row the database is as before.  It touches no other row
    and no other cache entry, drops the cache entry of the id, and leaves
    chunks, files and bucket alone. *)
Theorem updateUploadStatus_frame id st path w :
  ∃ w', UploadService.updateUploadStatus id st path w = (w', inr tt)
      ∧ (uploads w !! id = None → uploads w' = uploads w)
      ∧ (∀ id', is_Some (uploads w' !! id') ↔ is_Some (uploads w !! id'))
      ∧ (∀ id', id' ≠ id → uploads w' !! id' = uploads w !! id')
      ∧ redis_sessions w' !! id = None
      ∧ (∀ id', id' ≠ id → redis_sessions w' !! id' = redis_sessions w !! id')
      ∧ redis_chunks w' = redis_chunks w ∧ files w' = files w
      ∧ bucket w' = bucket w.
Proof.
  exists (updated w id st path). split; [apply updateUploadStatus_eq|].
  unfold updated. simpl. split; [|split; [|split; [|split; [|split]]]].
  - intros Hn. apply map_eq. intros k.
    destruct (decide (k = id)) as [-> | Hne].
    + by rewrite lookup_alter_eq, Hn.
    + by rewrite lookup_alter_ne.
  - intros id'. destruct (decide (id' = id)) as [-> | Hne].
    + rewrite lookup_alter_eq. by rewrite fmap_is_Some.
    + by rewrite lookup_alter_ne.
  - intros id' Hne. by rewrite lookup_alter_ne.
  - apply lookup_delete_eq.
  - intros id' Hne. by rewrite lookup_delete_ne.
  - done.
Qed.

Lemma update_row_twice st now row :
  UploadService.update_row st now None (UploadService.update_row st now None row)
  = UploadService.update_row st now None row.
Proof. reflexivity. Qed.

(** One turn of the loop of [cleanupExpiredUploads]. *)
Lemma cleanup_row cfg id w :
  ∃ w', (ChunkService.cleanupChunks cfg id ;;
         UploadService.updateUploadStatus id FAILED None ;;
         ret true) w = (w', inr true)
      ∧ clock w' = clock w
      ∧ uploads w' = alter (UploadService.update_row FAILED (clock w) None) id (uploads w)
      ∧ redis_sessions w' = delete id (redis_sessions w)
      ∧ (∀ i, redis_chunks w' !! (id, i) = None)
      ∧ (∀ id' i, id' ≠ id → redis_chunks w' !! (id', i) = redis_chunks w !! (id', i)).
Proof.
  destruct (cleanupChunks_run cfg id w) as (wa & E & C & C' & F & U & R & K & _).
  exists (updated wa id FAILED None). split.
  - unfold bind at 1. rewrite E. unfold bind at 1. by rewrite updateUploadStatus_eq.
  - unfold updated. simpl. rewrite U, R, K. by repeat split.
Qed.

Lemma cleanupRows_spec cfg rows : ∀ w cleaned,
  ∃ w', UploadService.cleanupRows cfg rows cleaned w
          = (w', inr (cleaned + Z.of_nat (length rows)))
      ∧ clock w' = clock w
      ∧ (∀ id, id ∈ rows →
           uploads w' !! id
           = UploadService.update_row FAILED (clock w) None <$> uploads w !! id)
      ∧ (∀ id, id ∉ rows → uploads w' !! id = uploads w !! id)
      ∧ (∀ id i, id ∈ rows → redis_chunks w' !! (id, i) = None)
      ∧ (∀ id i, id ∉ rows → redis_chunks w' !! (id, i) = redis_chunks w !! (id, i))
      ∧ (∀ id, id ∈ rows → redis_sessions w' !! id = None)
      ∧ (∀ id, id ∉ rows → redis_sessions w' !! id = redis_sessions w !! id).
Proof.
  induction rows as [|id0 rows IH]; intros w cleaned.
  - exists w. simpl. rewrite Z.add_0_r. split; [done|]. split; [done|].
    repeat split; try done; intros; by match goal with H : _ ∈ [] |- _ =>
      apply elem_of_nil in H end.
  - destruct (cleanup_row cfg id0 w) as (w1 & E1 & K1 & U1 & R1 & C1 & C1').
    destruct (IH w1 (cleaned + 1)) as (w2 & E2 & K2 & Uin & Uout & Cin & Cout & Rin & Rout).
    exists w2. split.
    { cbn [UploadService.cleanupRows]. unfold bind at 1, try_catch at 1.
      rewrite E1. rewrite E2. do 2 f_equal. cbn [length]. lia. }
    split; [congruence|].
    assert (Hdec : ∀ id, id ∈ rows ∨ id ∉ rows).
    { intros id. destruct (decide (id ∈ rows)); auto. }
    split; [|split; [|split; [|split; [|split]]]].
    + intros id Hid. destruct (Hdec id) as [Hin|Hout].
      * rewrite (Uin id Hin), U1, K1.
        destruct (decide (id = id0)) as [-> | Hne].
        -- rewrite lookup_alter_eq. by destruct (uploads w !! id0).
        -- by rewrite lookup_alter_ne.
      * apply elem_of_cons in Hid as [-> | Hid]; [|done].
        by rewrite (Uout id0 Hout), U1, lookup_alter_eq.
    + intros id Hid. apply not_elem_of_cons in Hid as [Hne Hout].
      by rewrite (Uout id Hout), U1, lookup_alter_ne.
    + intros id i Hid. destruct (Hdec id) as [Hin|Hout]; [by apply Cin|].
      apply elem_of_cons in Hid as [-> | Hid]; [|done].
      by rewrite (Cout id0 i Hout).
    + intros id i Hid. apply not_elem_of_cons in Hid as [Hne Hout].
      by rewrite (Cout id i Hout), C1'.
    + intros id Hid. destruct (Hdec id) as [Hin|Hout]; [by apply Rin|].
      apply elem_of_cons in Hid as [-> | Hid]; [|done].
      by rewrite (Rout id0 Hout), R1, lookup_delete_eq.
    + intros id Hid. apply not_elem_of_cons in Hid as [Hne Hout].
      by rewrite (Rout id Hout), R1, lookup_delete_ne.
Qed.

Lemma elem_of_expired_rows w id :
  id ∈ UploadService.expired_rows w
  ↔ ∃ row, uploads w !! id = Some row ∧ sweepable (clock w) row.
Proof.
  unfold UploadService.expired_rows, sweepable.
  rewrite list_elem_of_fmap. split.
  - intros ([id' row] & -> & Hin).
    apply list_elem_of_In, filter_In in Hin as [Hin Hf].
    apply list_elem_of_In, elem_of_map_to_list in Hin. simpl in *.
    apply andb_true_iff in Hf as [Hf H3]. apply andb_true_iff in Hf as [H1 H2].
    apply bool_decide_eq_true in H1.
    apply negb_true_iff, bool_decide_eq_false in H2, H3. eauto.
  - intros (row & Hrow & H1 & H2 & H3). exists (id, row). split; [done|].
    apply list_elem_of_In, filter_In. split.
    + by apply list_elem_of_In, elem_of_map_to_list.
    + simpl. rewrite !andb_true_iff, !negb_true_iff, !bool_decide_eq_false,
        bool_decide_eq_true. done.
Qed.

Lemma NoDup_expired_rows w : NoDup (UploadService.expired_rows w).
Proof.
  unfold UploadService.expired_rows.
  apply NoDup_fmap_2_strong.
  - intros [a x] [b y] Hx Hy Heq. simpl in Heq. subst b. f_equal.
    apply list_elem_of_In, filter_In in Hx as [Hx _], Hy as [Hy _].
    apply list_elem_of_In, elem_of_map_to_list in Hx, Hy. congruence.
  - apply NoDup_ListNoDup, List.NoDup_filter, NoDup_ListNoDup, NoDup_map_to_list.
Qed.

(** X13: [cleanupExpiredUploads] never fails and answers the number of
    rows past their expiry that are neither COMPLETED nor FAILED.  Each of
    these rows ends FAILED, with no chunk record and no cache entry left;
    every other row, with its chunk records and its cache entry, is as
    before, and no row appears or disappears.  A second sweep at the same
    time finds nothing: it answers 0 and changes nothing. *)
Theorem cleanupExpiredUploads_sweep cfg w :
  ∃ w' n,
    UploadService.cleanupExpiredUploads cfg w = (w', inr n)
    ∧ n = Z.of_nat (length (UploadService.expired_rows w))
    ∧ NoDup (UploadService.expired_rows w)
    ∧ (∀ id, id ∈ UploadService.expired_rows w
             ↔ ∃ row, uploads w !! id = Some row ∧ sweepable (clock w) row)
    ∧ (∀ id row, uploads w !! id = Some row → sweepable (clock w) row →
         uploads w' !! id = Some (UploadService.update_row FAILED (clock w) None row)
         ∧ stored_status w' id = Some FAILED
         ∧ (∀ i, redis_chunks w' !! (id, i) = None)
         ∧ redis_sessions w' !! id = None)
    ∧ (∀ id, (∀ row, uploads w !! id = Some row → ¬ sweepable (clock w) row) →
         uploads w' !! id = uploads w !! id
         ∧ (∀ i, redis_chunks w' !! (id, i) = redis_chunks w !! (id, i))
         ∧ redis_sessions w' !! id = redis_sessions w !! id)
    ∧ UploadService.cleanupExpiredUploads cfg w' = (w', inr 0).
Proof.
  destruct (cleanupRows_spec cfg (UploadService.expired_rows w) w 0)
    as (w' & E & K & Uin & Uout & Cin & Cout & Rin & Rout).
  exists w', (Z.of_nat (length (UploadService.expired_rows w))).
  split; [exact E|]. split; [done|]. split; [apply NoDup_expired_rows|].
  split; [apply elem_of_expired_rows|].
  assert (Hin : ∀ id row, uploads w !! id = Some row → sweepable (clock w) row →
                  id ∈ UploadService.expired_rows w).
  { intros id row Hrow Hs. apply elem_of_expired_rows. eauto. }
  assert (Hout : ∀ id, (∀ row, uploads w !! id = Some row → ¬ sweepable (clock w) row) →
                  id ∉ UploadService.expired_rows w).
  { intros id Hn [row [Hrow Hs]]%elem_of_expired_rows. by apply (Hn row). }
  split; [|split].
  - intros id row Hrow Hs. specialize (Hin id row Hrow Hs).
    unfold stored_status. rewrite (Uin id Hin), Hrow. simpl.
    split; [done|]. split; [done|]. split; [intros i; by apply Cin | by apply Rin].
  - intros id Hn. specialize (Hout id Hn).
    split; [by apply Uout|]. split; [intros i; by apply Cout | by apply Rout].
  - unfold UploadService.cleanupExpiredUploads, bind, gets.
    assert (Hnil : UploadService.expired_rows w' = []).
    { apply elem_of_nil_inv. intros id [row [Hrow [H1 [H2 H3]]]]%elem_of_expired_rows.
      rewrite K in H1.
      destruct (decide (id ∈ UploadService.expired_rows w)) as [Hi|Hi].
      - rewrite (Uin id Hi) in Hrow.
        destruct (uploads w !! id) as [r|]; [|discriminate].
        simpl in Hrow. inversion Hrow; subst row. by apply H3.
      - rewrite (Uout id Hi) in Hrow. apply Hi, elem_of_expired_rows.
        exists row. by repeat split. }
    by rewrite Hnil.
Qed.

(** ** Validation, further *)

Lemma lower_ascii_twice c : lower_ascii (lower_ascii c) = lower_ascii c.
Proof. destruct c as [[] [] [] [] [] [] [] []]; reflexivity. Qed.

Lemma lower_ascii_slash c :
  Ascii.eqb (lower_ascii c) "/" = Ascii.eqb c "/".
Proof. destruct c as [[] [] [] [] [] [] [] []]; reflexivity. Qed.

Lemma lower_ascii_dot c :
  Ascii.eqb (lower_ascii c) "." = Ascii.eqb c ".".
Proof. destruct c as [[] [] [] [] [] [] [] []]; reflexivity. Qed.

Lemma toLowerCase_twice s : toLowerCase (toLowerCase s) = toLowerCase s.
Proof. induction s as [|c s IH]; simpl; [done|]. by rewrite lower_ascii_twice, IH. Qed.

Lemma length_toLowerCase s : String.length (toLowerCase s) = String.length s.
Proof. induction s as [|c s IH]; simpl; congruence. Qed.

Lemma get_toLowerCase s : ∀ i,
  String.get i (toLowerCase s) = lower_ascii <$> String.get i s.
Proof. induction s as [|c s IH]; intros [|i]; simpl; auto. Qed.

Lemma substring_toLowerCase s : ∀ n m,
  substring n m (toLowerCase s) = toLowerCase (substring n m s).
Proof.
  induction s as [|c s IH]; intros [|n] [|m]; simpl; auto.
  by rewrite IH.
Qed.

Lemma extname_scan_toLowerCase path n : ∀ st,
  extname_scan (toLowerCase path) n st = extname_scan path n st.
Proof.
  induction n as [|i IH]; intros st; [done|].
  cbn [extname_scan]. rewrite get_toLowerCase.
  destruct (String.get i path) as [c|]; [|done]. cbn [fmap option_fmap option_map].
  rewrite lower_ascii_slash, lower_ascii_dot.
  destruct (Ascii.eqb c "/").
  - destruct (negb (matchedSlash st)); [done|apply IH].
  - apply IH.
Qed.

Lemma extname_toLowerCase path :
  extname (toLowerCase path) = toLowerCase (extname path).
Proof.
  unfold extname. rewrite length_toLowerCase, extname_scan_toLowerCase.
  destruct (bool_decide _); [done|]. apply substring_toLowerCase.
Qed.

(** X14: [validateFileType] is case-insensitive in the MIME type and in the
    file name: it accepts a pair exactly when it accepts the lower-cased
    pair. *)
Theorem validateFileType_case_insensitive fileType fileName :
  isValid (ValidationService.validateFileType fileType fileName)
  = isValid (ValidationService.validateFileType (toLowerCase fileType)
                                                (toLowerCase fileName)).
Proof.
  unfold ValidationService.validateFileType. cbn [isValid].
  rewrite extname_toLowerCase, !toLowerCase_twice.
  destruct (negb (includes _ (toLowerCase fileType)));
    destruct (negb (includes _ (toLowerCase (extname fileName)))); reflexivity.
Qed.

Lemma get_stem (stem rest : string) i :
  (i < String.length stem)%nat →
  String.get i (stem +:+ rest) = String.get i stem.
Proof. intros H. symmetry. by apply append_correct1. Qed.

Lemma get_rest (stem rest : string) j :
  String.get (String.length stem + j) (stem +:+ rest) = String.get j rest.
Proof. rewrite Nat.add_comm. symmetry. apply append_correct2. Qed.

Lemma get_lt_Some s : ∀ i, (i < String.length s)%nat → is_Some (String.get i s).
Proof.
  induction s as [|a s IH]; intros i Hi; simpl in *; [lia|].
  destruct i; [eauto|]. apply IH. lia.
Qed.

(** The scan of [extname] over an extension without dots and slashes, once
    the end of the name is marked. *)
Lemma extname_scan_ext stem ext k : ∀ st,
  (∀ i c, String.get i ext = Some c → c ≠ "."%char ∧ c ≠ "/"%char) →
  (k ≤ String.length ext)%nat →
  startDot st = -1 → scan_end st ≠ -1 →
  extname_scan (stem +:+ String "." ext) (String.length stem + 1 + k) st
  = extname_scan (stem +:+ String "." ext) (String.length stem + 1) st.
Proof.
  intros st Hext. revert st. induction k as [|k IH]; intros st Hk Hd He.
  - by rewrite Nat.add_0_r.
  - replace (String.length stem + 1 + S k)%nat
      with (S (String.length stem + 1 + k)) by lia.
    cbn [extname_scan].
    replace (String.length stem + 1 + k)%nat
      with (String.length stem + S k)%nat at 1 by lia.
    rewrite get_rest. cbn [String.get].
    destruct (String.get k ext) as [c|] eqn:Ec.
    2: { destruct (get_lt_Some ext k) as [c Hc]; [lia|congruence]. }
    destruct (Hext k c Ec) as [Hdot Hslash].
    apply Ascii.eqb_neq in Hdot, Hslash. rewrite Hslash, Hdot.
    destruct (decide (scan_end st = -1)) as [?|_]; [done|].
    destruct (decide (startDot st ≠ -1)) as [?|_]; [done|].
    apply IH; [lia|done..].
Qed.

(** The scan of [extname] over a stem without slashes, once the dot and the
    end of the name are marked. *)
Lemma extname_scan_stem stem rest k : ∀ st,
  (∀ i, String.get i stem ≠ Some "/"%char) →
  (k ≤ String.length stem)%nat →
  startDot st ≠ -1 → scan_end st ≠ -1 →
  ∃ pd, (k = 0%nat → pd = preDotState st)
      ∧ (k ≠ 0%nat → pd = 1 ∨ pd = -1)
      ∧ extname_scan (stem +:+ rest) k st
        = mkExtScan (startDot st) (startPart st) (scan_end st) (matchedSlash st) pd.
Proof.
  intros st Hstem. revert st. induction k as [|k IH]; intros st Hk Hd He.
  - exists (preDotState st). split; [done|]. split; [done|]. by destruct st.
  - cbn [extname_scan]. rewrite get_stem by lia.
    destruct (get_lt_Some stem k) as [c Ec]; [lia|]. rewrite Ec.
    assert (Hslash : Ascii.eqb c "/" = false).
    { apply Ascii.eqb_neq. intros ->. by apply (Hstem k). }
    rewrite Hslash.
    destruct (decide (scan_end st = -1)) as [?|_]; [done|].
    match goal with |- context [extname_scan _ k ?s] => set (st2 := s) end.
    assert (H2 : startDot st2 = startDot st ∧ startPart st2 = startPart st
                 ∧ scan_end st2 = scan_end st ∧ matchedSlash st2 = matchedSlash st
                 ∧ (preDotState st2 = 1 ∨ preDotState st2 = -1)).
    { subst st2. destruct (Ascii.eqb c ".").
      - destruct (decide (startDot st = -1)) as [?|_]; [done|].
        destruct (decide (preDotState st ≠ 1)) as [?|Hp]; simpl; [by auto 10|].
        apply dec_stable in Hp. by auto 10.
      - destruct (decide (startDot st ≠ -1)) as [_|?]; [|done]. simpl. by auto 10. }
    destruct H2 as (D2 & P2 & E2 & M2 & S2).
    destruct (IH st2) as (pd & H0 & H1 & Hscan); [lia|congruence..|].
    exists pd. split; [done|]. split.
    + intros _. destruct (decide (k = 0%nat)) as [Hz|Hz]; [|by apply H1].
      by rewrite (H0 Hz).
    + rewrite Hscan. by rewrite D2, P2, E2, M2.
Qed.

Lemma length_append_string s1 s2 :
  String.length (s1 +:+ s2) = (String.length s1 + String.length s2)%nat.
Proof. induction s1 as [|a s1 IH]; simpl; [done|]. by rewrite IH. Qed.

Lemma substring_all s : substring 0 (String.length s) s = s.
Proof. induction s as [|b s IH]; simpl; [done|]. by rewrite IH. Qed.

Lemma substring_suffix s1 : ∀ s2,
  substring (String.length s1) (String.length s2) (s1 +:+ s2) = s2.
Proof.
  induction s1 as [|a s1 IH]; intros s2; simpl; [apply substring_all|apply IH].
Qed.

(** [path.extname] of a plain file name [stem.ext]. *)
Lemma extname_plain stem ext :
  stem ≠ "" → ext ≠ "" →
  (∀ i, String.get i stem ≠ Some "/"%char) →
  (∀ i c, String.get i ext = Some c → c ≠ "."%char ∧ c ≠ "/"%char) →
  extname (stem +:+ "." +:+ ext) = "." +:+ ext.
Proof.
  intros Hs He Hstem Hext.
  change (stem +:+ "." +:+ ext) with (stem +:+ String "." ext).
  unfold extname.
  assert (Hlen : String.length (stem +:+ String "." ext)
                 = S (String.length stem + 1 + Nat.pred (String.length ext))).
  { rewrite length_append_string. simpl. destruct ext; [done|simpl; lia]. }
  destruct (get_lt_Some ext (Nat.pred (String.length ext))) as [c Ec].
  { destruct ext; [done|simpl; lia]. }
  assert (Hlast : String.get (String.length stem + 1 + Nat.pred (String.length ext))
                    (stem +:+ String "." ext) = Some c).
  { replace (String.length stem + 1 + Nat.pred (String.length ext))%nat
      with (String.length stem + S (Nat.pred (String.length ext)))%nat by lia.
    by rewrite get_rest. }
  assert (Hmid : String.get (String.length stem) (stem +:+ String "." ext)
                 = Some "."%char).
  { replace (String.length stem) with (String.length stem + 0)%nat at 1 by lia.
    by rewrite get_rest. }
  rewrite Hlen. cbn [extname_scan]. rewrite Hlast.
  destruct (Hext _ c Ec) as [Hdot Hslash].
  apply Ascii.eqb_neq in Hdot, Hslash. rewrite Hslash, Hdot. simpl.
  rewrite extname_scan_ext; [|done|lia|done|simpl; lia].
  replace (String.length stem + 1)%nat with (S (String.length stem)) by lia.
  cbn [extname_scan]. rewrite Hmid. simpl.
  match goal with |- context [extname_scan _ _ ?s] => set (st3 := s) end.
  destruct (extname_scan_stem stem (String "." ext) (String.length stem) st3)
    as (pd & _ & Hpd & Hscan); [done|lia|simpl; lia|simpl; lia|].
  rewrite Hscan. simpl.
  assert (Hn : String.length stem ≠ 0%nat) by (destruct stem; [done|simpl; lia]).
  assert (Hm : String.length ext ≠ 0%nat) by (destruct ext; [done|simpl; lia]).
  specialize (Hpd Hn).
  rewrite bool_decide_eq_false_2 by lia.
  rewrite Nat2Z.id.
  replace (Z.to_nat _) with (String.length (String "." ext)) by (simpl; lia).
  apply substring_suffix.
Qed.

(** X15: for a plain file name [stem.ext] (a non-empty stem without
    slashes, a non-empty extension without dots and slashes),
    [validateFileType] accepts exactly when the lower-cased MIME type is
    among the allowed types and the lower-cased [.ext] among the allowed
    extensions. *)
Theorem validateFileType_plain_name fileType stem ext :
  stem ≠ "" → ext ≠ "" →
  (∀ i, String.get i stem ≠ Some "/"%char) →
  (∀ i c, String.get i ext = Some c → c ≠ "."%char ∧ c ≠ "/"%char) →
  isValid (ValidationService.validateFileType fileType (stem +:+ "." +:+ ext))
  = includes ValidationService.allowedMimeTypes (toLowerCase fileType)
    && includes ValidationService.allowedExtensions ("." +:+ toLowerCase ext).
Proof.
  intros Hs He Hstem Hext.
  unfold ValidationService.validateFileType. cbn [isValid].
  rewrite extname_plain by done.
  change (toLowerCase ("." +:+ ext)) with ("." +:+ toLowerCase ext).
  destruct (includes _ (toLowerCase fileType));
    destruct (includes _ ("." +:+ toLowerCase ext)); reflexivity.
Qed.

Lemma validateFileType_plain_name_witness :
  isValid (ValidationService.validateFileType "Application/JSON" "Report.JSON")
  = includes ValidationService.allowedMimeTypes (toLowerCase "Application/JSON")
    && includes ValidationService.allowedExtensions ("." +:+ toLowerCase "JSON").
Proof.
  refine (validateFileType_plain_name "Application/JSON" "Report" "JSON" _ _ _ _).
  - discriminate.
  - discriminate.
  - intros i. do 7 (destruct i as [|i]; [discriminate|]). discriminate.
  - intros i c H. do 5 (destruct i as [|i]; [inversion H; split; discriminate|]).
    discriminate.
Defined.

Lemma extname_scan_no_dot path n : ∀ st,
  (∀ i, String.get i path ≠ Some "."%char) →
  startDot st = -1 → startDot (extname_scan path n st) = -1.
Proof.
  induction n as [|i IH]; intros st Hp Hd; [done|].
  cbn [extname_scan].
  destruct (String.get i path) as [c|] eqn:Ec; [|done].
  assert (Hdot : Ascii.eqb c "." = false).
  { apply Ascii.eqb_neq. intros ->. by apply (Hp i). }
  rewrite Hdot.
  destruct (Ascii.eqb c "/").
  - destruct (negb (matchedSlash st)); [done|by apply IH].
  - apply IH; [done|].
    destruct (decide (scan_end st = -1)); simpl;
      (destruct (decide (_ ≠ -1)) as [Hn|_]; [by destruct Hn|done]).
Qed.

(** X16: a file name without a dot has no extension, and [validateFileType]
    refuses it whatever the MIME type. *)
Theorem validateFileType_no_dot fileType fileName :
  (∀ i, String.get i fileName ≠ Some "."%char) →
  isValid (ValidationService.validateFileType fileType fileName) = false
  ∧ "File extension '' is not allowed"
    ∈ errors (ValidationService.validateFileType fileType fileName).
Proof.
  intros Hp.
  assert (He : extname fileName = "").
  { unfold extname. rewrite bool_decide_eq_true_2; [done|]. left.
    by apply extname_scan_no_dot. }
  unfold ValidationService.validateFileType. cbn [isValid errors]. rewrite He.
  destruct (negb (includes _ (toLowerCase fileType))); split;
    (reflexivity || (simpl; set_solver)).
Qed.

Lemma validateFileType_no_dot_witness :
  isValid (ValidationService.validateFileType "text/plain" "README") = false
  ∧ "File extension '' is not allowed"
    ∈ errors (ValidationService.validateFileType "text/plain" "README").
Proof.
  refine (validateFileType_no_dot "text/plain" "README" _).
  intros i. do 7 (destruct i as [|i]; [discriminate|]). discriminate.
Defined.

Lemma validateChecksum_run p cs w :
  ∃ v, ValidationService.validateChecksum p cs w = (w, inr v)
     ∧ (isValid v = true
        ↔ truthy cs = false
          ∨ ∃ data, files w !! p = Some data
                  ∧ cs = Some ("sha256:" +:+ SHA256.hexdigest data))
     ∧ (isValid v = false → length (errors v) = 1%nat).
Proof.
  unfold ValidationService.validateChecksum, ValidationService.calculateChecksum.
  destruct (truthy cs) eqn:Ht; unfold_g.
  - destruct cs as [c|]; [|discriminate]. simpl.
    destruct (files w !! p) as [data|] eqn:Hf; simpl.
    + destruct (String.eqb ("sha256:" +:+ SHA256.hexdigest data) c) eqn:Ec; simpl.
      * eexists. split; [reflexivity|]. simpl. split; [|done].
        split; [|done]. intros _. right. exists data. split; [done|].
        apply String.eqb_eq in Ec. by rewrite Ec.
      * eexists. split; [reflexivity|]. simpl. split; [|done].
        split; [done|]. intros [?|(d & [= <-] & [= Hc])]; [done|].
        apply String.eqb_neq in Ec. by rewrite Hc in Ec.
    + eexists. split; [reflexivity|]. simpl. split; [|done].
      split; [done|]. intros [?|(d & ? & _)]; done.
  - eexists. split; [reflexivity|]. simpl. split; [|done]. split; auto.
Qed.

(** X17: [validateChecksum] never fails and writes nothing.  It accepts
    exactly when no (or an empty) checksum is expected, or the file exists
    and the expected text is ["sha256:"] followed by the hex digest of its
    bytes; a refusal carries one error. *)
Theorem validateChecksum_verdict p cs w :
  ∃ v, ValidationService.validateChecksum p cs w = (w, inr v)
     ∧ (isValid v = true
        ↔ truthy cs = false
          ∨ ∃ data, files w !! p = Some data
                  ∧ cs = Some ("sha256:" +:+ SHA256.hexdigest data))
     ∧ (isValid v = false → length (errors v) = 1%nat).
Proof. apply validateChecksum_run. Qed.

Lemma length_fold_round l : ∀ h,
  length h = 8%nat → length (fold_left SHA256.round l h) = 8%nat.
Proof.
  induction l as [|kw l IH]; intros h Hh; [done|]. simpl. apply IH.
  do 9 (destruct h as [|? h]; try done).
Qed.

Lemma length_fold_compress bl : ∀ h,
  length h = 8%nat → length (fold_left SHA256.compress bl h) = 8%nat.
Proof.
  induction bl as [|b bl IH]; intros h Hh; [done|]. simpl. apply IH.
  unfold SHA256.compress. rewrite length_zip_with, length_fold_round by done. lia.
Qed.

Lemma length_hex bs : String.length (SHA256.hex bs) = (2 * length bs)%nat.
Proof. induction bs as [|b bs IH]; simpl; [done|]. rewrite IH. lia. Qed.

Lemma length_bind_word_bytes ws :
  length (ws ≫= SHA256.word_bytes) = (4 * length ws)%nat.
Proof.
  induction ws as [|x ws IH]; [done|].
  rewrite bind_cons, length_app, IH. simpl. lia.
Qed.

Lemma length_hexdigest data : String.length (SHA256.hexdigest data) = 64%nat.
Proof.
  unfold SHA256.hexdigest, SHA256.digest.
  rewrite length_hex, length_bind_word_bytes, length_fold_compress; done.
Qed.

Lemma hex_digit_range n :
  0 ≤ n < 16 → In (SHA256.hex_digit n) (list_ascii_of_string "0123456789abcdef").
Proof.
  intros H.
  assert (Hn : n = 0 ∨ n = 1 ∨ n = 2 ∨ n = 3 ∨ n = 4 ∨ n = 5 ∨ n = 6 ∨ n = 7
             ∨ n = 8 ∨ n = 9 ∨ n = 10 ∨ n = 11 ∨ n = 12 ∨ n = 13 ∨ n = 14 ∨ n = 15)
    by lia.
  clear H. repeat destruct Hn as [-> | Hn]; try subst n; vm_compute; tauto.
Qed.

Lemma hex_chars bs :
  Forall (λ b, 0 ≤ b < 256) bs →
  ∀ i c, String.get i (SHA256.hex bs) = Some c →
         In c (list_ascii_of_string "0123456789abcdef").
Proof.
  induction 1 as [|b bs Hb _ IH]; intros i c Hc; [discriminate|].
  cbn [SHA256.hex String.get] in Hc.
  destruct i as [|[|i]].
  - inversion Hc. apply hex_digit_range.
    split; [apply Z.div_pos; lia | apply Z.div_lt_upper_bound; lia].
  - inversion Hc. apply hex_digit_range. apply Z.mod_pos_bound. lia.
  - by apply (IH i).
Qed.

Lemma word_bytes_range ws :
  Forall (λ b, 0 ≤ b < 256) (ws ≫= SHA256.word_bytes).
Proof.
  induction ws as [|x ws IH]; [constructor|].
  assert (H : ∀ y, 0 ≤ Z.land y 0xff < 256).
  { intros y. change 0xff with (Z.ones 8). rewrite Z.land_ones by lia.
    apply Z.mod_pos_bound. lia. }
  rewrite bind_cons. apply Forall_app. split; [|exact IH].
  unfold SHA256.word_bytes. repeat (constructor; [apply H|]). constructor.
Qed.

(** X18: for an existing file, [calculateChecksum] answers ["sha256:"]
    followed by 64 lower-case hex digits, writes nothing, and
    [validateChecksum] accepts the file against that answer. *)
Theorem calculateChecksum_format p data w :
  files w !! p = Some data →
  ∃ c, ValidationService.calculateChecksum p w = (w, inr c)
     ∧ c = "sha256:" +:+ SHA256.hexdigest data
     ∧ String.length c = 71%nat
     ∧ (∀ i ch, String.get i (SHA256.hexdigest data) = Some ch →
                In ch (list_ascii_of_string "0123456789abcdef"))
     ∧ ValidationService.validateChecksum p (Some c) w
       = (w, inr ValidationService.valid).
Proof.
  intros Hf. eexists. split.
  { unfold ValidationService.calculateChecksum. unfold_g. rewrite Hf. reflexivity. }
  split; [done|]. split.
  { rewrite length_append_string, length_hexdigest. done. }
  split.
  { apply hex_chars, word_bytes_range. }
  unfold ValidationService.validateChecksum, ValidationService.calculateChecksum.
  unfold_g. rewrite Hf. simpl. by rewrite String.eqb_refl.
Qed.

Lemma calculateChecksum_format_witness :
  ∃ c, ValidationService.calculateChecksum "uploads/final/upl_abc/hello.txt"
         completed_world = (completed_world, inr c)
     ∧ c = "sha256:" +:+ SHA256.hexdigest (bytes "HELLOWORLD!")
     ∧ String.length c = 71%nat
     ∧ (∀ i ch, String.get i (SHA256.hexdigest (bytes "HELLOWORLD!")) = Some ch →
                In ch (list_ascii_of_string "0123456789abcdef"))
     ∧ ValidationService.validateChecksum "uploads/final/upl_abc/hello.txt"
         (Some c) completed_world
       = (completed_world, inr ValidationService.valid).
Proof.
  refine (calculateChecksum_format "uploads/final/upl_abc/hello.txt"
            (bytes "HELLOWORLD!") completed_world _).
  vm_compute. reflexivity.
Defined.

Lemma validateJsonSchema_run J p w :
  ∃ v, ValidationService.validateJsonSchema J p w = (w, inr v)
     ∧ (isValid v = true → is_Some (files w !! p))
     ∧ (isValid v = false → errors v ≠ []).
Proof.
  unfold ValidationService.validateJsonSchema. unfold_g.
  destruct (files w !! p) as [data|]; simpl.
  2: { eexists. split; [reflexivity|]. simpl. split; done. }
  destruct (String.eqb (toLowerCase (extname p)) ".json"); simpl.
  { destruct (J (utf8_text data)); simpl; eexists; (split; [reflexivity|]);
      simpl; split; eauto; done. }
  destruct (String.eqb (toLowerCase (extname p)) ".jsonl"); simpl.
  2: { eexists. split; [reflexivity|]. simpl. split; eauto; done. }
  eexists. split; [reflexivity|]. simpl. split; [eauto|].
  intros Hb Hn. apply bool_decide_eq_false in Hb. apply Hb. by rewrite Hn.
Qed.

Lemma validateFileType_invalid ft name :
  isValid (ValidationService.validateFileType ft name) = false →
  errors (ValidationService.validateFileType ft name) ≠ [].
Proof.
  unfold ValidationService.validateFileType. cbn [isValid errors].
  intros Hb Hn. apply bool_decide_eq_false in Hb. apply Hb. by rewrite Hn.
Qed.

Lemma validateFileSize_valid size max :
  isValid (ValidationService.validateFileSize size max) = true ↔ 0 < size ≤ max.
Proof.
  unfold ValidationService.validateFileSize.
  repeat case_decide; simpl; split; (done || lia).
Qed.

Lemma validateFileSize_invalid size max :
  isValid (ValidationService.validateFileSize size max) = false →
  errors (ValidationService.validateFileSize size max) ≠ [].
Proof.
  unfold ValidationService.validateFileSize. repeat case_decide; simpl; done.
Qed.

Lemma validateFile_run J p ft name size max cs w :
  ∃ v, ValidationService.validateFile J p ft name size max cs w = (w, inr v)
     ∧ (isValid v = true ↔ errors v = [])
     ∧ (isValid v = true →
        isValid (ValidationService.validateFileType ft name) = true
        ∧ 0 < size ≤ max
        ∧ (truthy cs = true →
           ∃ data, files w !! p = Some data
                 ∧ cs = Some ("sha256:" +:+ SHA256.hexdigest data))
        ∧ (endsWith name ".json" || endsWith name ".jsonl" = true →
           is_Some (files w !! p))).
Proof.
  unfold ValidationService.validateFile.
  set (e1 := if negb (isValid (ValidationService.validateFileType ft name))
             then errors (ValidationService.validateFileType ft name) else []).
  set (e2 := if negb (isValid (ValidationService.validateFileSize size max))
             then errors (ValidationService.validateFileSize size max) else []).
  assert (H1 : e1 = [] → isValid (ValidationService.validateFileType ft name) = true).
  { subst e1. clear e2.
    destruct (isValid (ValidationService.validateFileType ft name)) eqn:E; [done|].
    simpl. intros Hn. by apply validateFileType_invalid in E. }
  assert (H2 : e2 = [] → 0 < size ≤ max).
  { subst e2. clear e1 H1. intros Hn. apply validateFileSize_valid.
    destruct (isValid (ValidationService.validateFileSize size max)) eqn:E; [done|].
    simpl in Hn. by apply validateFileSize_invalid in E. }
  assert (H3 : ∃ e3,
      (if truthy cs
       then checksumValidation <- ValidationService.validateChecksum p cs ;;
            ret (if negb (isValid checksumValidation)
                 then errors checksumValidation else [])
       else ret []) w = (w, inr e3)
      ∧ (e3 = [] → truthy cs = true →
         ∃ data, files w !! p = Some data
               ∧ cs = Some ("sha256:" +:+ SHA256.hexdigest data))).
  { destruct (truthy cs) eqn:Ht; [|by exists []].
    destruct (validateChecksum_run p cs w) as (v & E & Hv & He).
    eexists. split; [unfold bind; rewrite E; reflexivity|].
    destruct (isValid v) eqn:Ev; simpl.
    - intros _ _. destruct (proj1 Hv eq_refl) as [?|?]; [congruence|done].
    - intros Hn. specialize (He eq_refl). by rewrite Hn in He. }
  assert (H4 : ∃ e4,
      (if endsWith name ".json" || endsWith name ".jsonl"
       then schemaValidation <- ValidationService.validateJsonSchema J p ;;
            ret (if negb (isValid schemaValidation)
                 then errors schemaValidation else [])
       else ret []) w = (w, inr e4)
      ∧ (e4 = [] → endsWith name ".json" || endsWith name ".jsonl" = true →
         is_Some (files w !! p))).
  { destruct (endsWith name ".json" || endsWith name ".jsonl"); [|by exists []].
    destruct (validateJsonSchema_run J p w) as (v & E & Hv & He).
    eexists. split; [unfold bind; rewrite E; reflexivity|].
    destruct (isValid v) eqn:Ev; simpl; [auto|].
    intros Hn. by apply He in Hn. }
  destruct H3 as (e3 & E3 & H3). destruct H4 as (e4 & E4 & H4).
  unfold bind at 1. rewrite E3. unfold bind at 1. rewrite E4.
  eexists. split; [reflexivity|]. cbn [isValid errors].
  rewrite bool_decide_eq_true.
  assert (Hnil : length (e1 ++ e2 ++ e3 ++ e4)%list = 0%nat
                 ↔ (e1 ++ e2 ++ e3 ++ e4)%list = []).
  { split; [apply nil_length_inv | by intros ->]. }
  split; [exact Hnil|]. intros Hl. apply Hnil in Hl.
  apply app_eq_nil in Hl as [Hn1 Hl]. apply app_eq_nil in Hl as [Hn2 Hl].
  apply app_eq_nil in Hl as [Hn3 Hn4]. auto.
Qed.

(** X19: [validateFile] never fails and writes nothing, even when the file
    does not exist; it accepts exactly when it has no error to report, and
    then [validateFileType] accepts the type and name, the size is in
    (0, maxSize], a non-empty expected checksum is ["sha256:"] followed by
    the digest of the file, and for a name ending in [.json] or [.jsonl]
    the file exists. *)
Theorem validateFile_total J p fileType fileName fileSize maxSize cs w :
  ∃ v, ValidationService.validateFile J p fileType fileName fileSize maxSize cs w
         = (w, inr v)
     ∧ (isValid v = true ↔ errors v = [])
     ∧ (isValid v = true →
        isValid (ValidationService.validateFileType fileType fileName) = true
        ∧ 0 < fileSize ≤ maxSize
        ∧ (truthy cs = true →
           ∃ data, files w !! p = Some data
                 ∧ cs = Some ("sha256:" +:+ SHA256.hexdigest data))
        ∧ (endsWith fileName ".json" || endsWith fileName ".jsonl" = true →
           is_Some (files w !! p))).
Proof. apply validateFile_run. Qed.

(** X20: the schema check of [validateFile] looks at the end of the file
    name as it is written, in lower case only: for a name that ends
    neither in [.json] nor in [.jsonl] (such as [DATA.JSON], whose type
    [validateFileType] accepts) the content is never parsed, and the
    verdict does not depend on what [JSON.parse] would say. *)
Theorem validateFile_skips_schema J1 J2 p fileType fileName fileSize maxSize cs w :
  endsWith fileName ".json" = false →
  endsWith fileName ".jsonl" = false →
  ValidationService.validateFile J1 p fileType fileName fileSize maxSize cs w
  = ValidationService.validateFile J2 p fileType fileName fileSize maxSize cs w.
Proof.
  intros H1 H2. unfold ValidationService.validateFile. by rewrite H1, H2.
Qed.

Lemma validateFile_skips_schema_witness :
  isValid (ValidationService.validateFileType "application/json" "DATA.JSON") = true
  ∧ ValidationService.validateFile (λ _, None) "uploads/final/upl_abc/hello.txt"
      "application/json" "DATA.JSON" 11 1024 None completed_world
    = ValidationService.validateFile (λ _, Some "Unexpected token")
        "uploads/final/upl_abc/hello.txt"
        "application/json" "DATA.JSON" 11 1024 None completed_world.
Proof.
  split; [reflexivity|].
  apply (validateFile_skips_schema (λ _, None) (λ _, Some "Unexpected token"));
    reflexivity.
Defined.

(** ** Requests *)



Lemma storeChunk_run cfg id i data w :
  ∃ w' r, ChunkService.storeChunk cfg id i data w = (w', inr r)
        ∧ is_Some (redis_chunks w' !! (id, i))
        ∧ (∀ k, k ≠ (id, i) → redis_chunks w' !! k = redis_chunks w !! k)
        ∧ (∀ k, is_Some (redis_chunks w !! k) → is_Some (redis_chunks w' !! k))
        ∧ uploads w' = uploads w ∧ redis_sessions w' = redis_sessions w
        ∧ clock w' = clock w.
Proof.
  destruct (redis_chunks w !! (id, i)) as [m|] eqn:E.
  - exists w, (mkStoreResult true (cm_size m)).
    split; [by apply storeChunk_present|]. rewrite E. by repeat split; eauto.
  - destruct (storeChunk_fresh cfg id i data w E) as (w' & E' & C & _ & _ & _ & U & R & K).
    exists w', (mkStoreResult false (Z.of_nat (length data))).
    split; [done|]. rewrite C. split; [by rewrite lookup_insert_eq|].
    split; [intros k Hk; by rewrite lookup_insert_ne|].
    split; [|done]. intros k Hk. destruct (decide (k = (id, i))) as [-> | Hne].
    + by rewrite lookup_insert_eq.
    + by rewrite lookup_insert_ne.
Qed.

(** [uploadChunk] past its two checks. *)
Lemma uploadChunk_run cfg id i tc data w session :
  load w id = Some session →
  0 ≤ i < totalChunks session →
  ∃ w' st,
    UploadController.uploadChunk cfg (mkChunkRequest id i tc data) w
    = (w', inr (mkChunkResponse i st (Z.of_nat (length (chunk_indices w' id)))
                                (totalChunks session)))
    ∧ is_Some (redis_chunks w' !! (id, i))
    ∧ (∀ k, k ≠ (id, i) → redis_chunks w' !! k = redis_chunks w !! k)
    ∧ (∀ k, is_Some (redis_chunks w !! k) → is_Some (redis_chunks w' !! k)).
Proof.
  intros Hl Hi. unfold UploadController.uploadChunk. simpl.
  unfold bind at 1. rewrite getUploadSession_eq, Hl.
  unfold bind at 1. rewrite decide_False by lia. unfold ret at 1.
  destruct (loaded_frame w id) as (U1 & C1 & F1 & B1 & O1 & K1).
  destruct (storeChunk_run cfg id i data (loaded w id))
    as (w2 & r & E2 & S2 & N2 & M2 & _).
  rewrite C1 in N2, M2.
  unfold bind at 1. rewrite E2.
  assert (Hst : ∃ w3, (if decide (status session = INIT)
                       then UploadService.updateUploadStatus id UPLOADING None
                       else ret tt) w2 = (w3, inr tt)
                    ∧ redis_chunks w3 = redis_chunks w2).
  { destruct (decide _); eexists; split; reflexivity || done. }
  destruct Hst as (w3 & E3 & C3). unfold bind at 1. rewrite E3.
  unfold bind at 1. rewrite getChunkCount_eq.
  exists w3, (if alreadyExists r then already_uploaded else uploaded).
  split; [by destruct (alreadyExists r)|]. rewrite C3. done.
Qed.

(** X22: the outcomes of [uploadChunk].  It succeeds exactly when the
    session is known and the index lies in [0, totalChunks); a failing S3
    never fails the request.  Otherwise it answers 404 NOT_FOUND (unknown
    session) or 400 VALIDATION_ERROR (index out of range), and has written
    no chunk record, no file, no bucket object and no row. *)
Theorem uploadChunk_outcomes cfg id i tc data w :
  ((∃ w' resp, UploadController.uploadChunk cfg (mkChunkRequest id i tc data) w
               = (w', inr resp))
   ↔ ∃ session, load w id = Some session ∧ 0 ≤ i < totalChunks session)
  ∧ (∀ w' t, UploadController.uploadChunk cfg (mkChunkRequest id i tc data) w
             = (w', inl t) →
       ∃ e, t = ThrowApp e
          ∧ (load w id = None ∧ statusCode e = 404 ∧ code e = "NOT_FOUND"
             ∨ is_Some (load w id) ∧ statusCode e = 400
               ∧ code e = "VALIDATION_ERROR")
          ∧ redis_chunks w' = redis_chunks w ∧ files w' = files w
          ∧ bucket w' = bucket w ∧ uploads w' = uploads w).
Proof.
  destruct (load w id) as [session|] eqn:Hl.
  - destruct (decide (0 ≤ i < totalChunks session)) as [Hi|Hi].
    + destruct (uploadChunk_run cfg id i tc data w session Hl Hi) as (w' & st & E & _).
      split.
      * split; [eauto|]. intros _. eauto.
      * intros w'' t Ht. rewrite E in Ht. discriminate.
    + assert (E : ∃ e, UploadController.uploadChunk cfg (mkChunkRequest id i tc data) w
                       = (loaded w id, inl (ThrowApp e))
                     ∧ statusCode e = 400 ∧ code e = "VALIDATION_ERROR").
      { unfold UploadController.uploadChunk. simpl.
        unfold bind at 1. rewrite getUploadSession_eq, Hl.
        unfold bind at 1. rewrite decide_True by lia.
        eexists. split; [reflexivity|]. done. }
      destruct E as (e & E & Hs & Hc). split.
      * split.
        -- intros (w' & resp & Hr). rewrite E in Hr. discriminate.
        -- intros (s & [= <-] & Hin). done.
      * intros w' t Ht. rewrite E in Ht. inversion Ht; subst.
        destruct (loaded_frame w id) as (U1 & C1 & F1 & B1 & O1 & K1).
        exists e. split; [done|]. split; [right; eauto|]. done.
  - rewrite (uploadChunk_absent cfg (mkChunkRequest id i tc data) w Hl). split.
    + split; [intros (w' & resp & Hr); discriminate | intros (s & Hs & _); discriminate].
    + intros w' t [= <- <-]. eexists. split; [reflexivity|].
      split; [left; done|]. done.
Qed.

(** X23: progress.  When the recorded indices of a session lie in
    [0, totalChunks), an accepted chunk request keeps them there and
    reports a progress between 1 and [totalChunks]: the number of recorded
    chunks, which reaches [totalChunks] exactly when no chunk is missing. *)
Theorem uploadChunk_progress cfg id i tc data w session :
  load w id = Some session →
  0 ≤ i < totalChunks session →
  (∀ j, is_Some (redis_chunks w !! (id, j)) → 0 ≤ j < totalChunks session) →
  ∃ w' resp,
    UploadController.uploadChunk cfg (mkChunkRequest id i tc data) w = (w', inr resp)
    ∧ progress_total resp = totalChunks session
    ∧ 1 ≤ progress_uploaded resp ≤ progress_total resp
    ∧ ChunkService.getChunkCount id w' = (w', inr (progress_uploaded resp))
    ∧ (∀ j, is_Some (redis_chunks w' !! (id, j)) → 0 ≤ j < totalChunks session)
    ∧ (progress_uploaded resp = progress_total resp
       ↔ ChunkService.getMissingChunks id (totalChunks session) w' = (w', inr [])).
Proof.
  intros Hl Hi Hr.
  destruct (uploadChunk_run cfg id i tc data w session Hl Hi)
    as (w' & st & E & Hs & Hother & Hmono).
  assert (Hr' : ∀ j, is_Some (redis_chunks w' !! (id, j)) → 0 ≤ j < totalChunks session).
  { intros j Hj. destruct (decide (j = i)) as [-> | Hne]; [done|].
    apply Hr. rewrite <- Hother; [done|]. congruence. }
  pose proof (chunk_indices_in_range_filter w' id (totalChunks session) Hr') as Hp.
  pose proof (filter_split_length
                (λ j, bool_decide (j ∈ chunk_indices w' id))
                (seqZ 0 (totalChunks session))) as Hsplit.
  rewrite <- Hp in Hsplit. fold (missing_chunks w' id (totalChunks session)) in Hsplit.
  rewrite length_seqZ in Hsplit.
  assert (Hpos : (0 < length (chunk_indices w' id))%nat).
  { assert (Hin : i ∈ chunk_indices w' id).
    { apply elem_of_chunk_indices. split; [lia|done]. }
    destruct (chunk_indices w' id); [|simpl; lia].
    by apply elem_of_nil in Hin. }
  eexists _, _. split; [exact E|]. simpl.
  split; [done|]. split; [lia|]. split; [by rewrite getChunkCount_eq|].
  split; [done|]. rewrite getMissingChunks_eq. split.
  - intros Heq. assert (Hz : length (missing_chunks w' id (totalChunks session)) = 0%nat)
      by lia. apply nil_length_inv in Hz. by rewrite Hz.
  - intros [= Hm]. rewrite Hm in Hsplit. simpl in Hsplit. lia.
Qed.

Lemma uploadChunk_progress_witness :
  ∃ w' resp,
    UploadController.uploadChunk demo_config (chunk_request 1 "OWOR") gap_world
      = (w', inr resp)
    ∧ progress_total resp = 3
    ∧ 1 ≤ progress_uploaded resp ≤ progress_total resp
    ∧ ChunkService.getChunkCount "upl_abc" w' = (w', inr (progress_uploaded resp))
    ∧ (∀ j, is_Some (redis_chunks w' !! ("upl_abc", j)) → 0 ≤ j < 3)
    ∧ (progress_uploaded resp = progress_total resp
       ↔ ChunkService.getMissingChunks "upl_abc" 3 w' = (w', inr [])).
Proof.
  refine (uploadChunk_progress demo_config "upl_abc" 1 3 (bytes "OWOR") gap_world
            (mkSession "upl_abc" None "hello.txt" 11 "text/plain" None 3 UPLOADING
                       None [] 0 0 86400000) _ _ _).
  - vm_compute. reflexivity.
  - simpl. lia.
  - eapply (recorded_indices_in gap_world "upl_abc"); [vm_compute; reflexivity|].
    repeat (apply List.Forall_cons; [simpl; intros _; lia|]). apply List.Forall_nil.
Defined.







(** ** Cleanup, then status *)

Lemma filter_all {A} (f : A → bool) (l : list A) :
  (∀ x, f x = true) → List.filter f l = l.
Proof. intros H. induction l as [|x l IH]; simpl; [done|]. by rewrite H, IH. Qed.

(** X25: after [cleanupChunks] the upload is back at the start:
    [getMissingChunks] answers every index 0, ..., totalChunks - 1 and
    [getChunkCount] answers 0. *)
Theorem cleanup_then_missing cfg id n w :
  ∃ w', (ChunkService.cleanupChunks cfg id ;;
         ChunkService.getMissingChunks id n) w = (w', inr (seqZ 0 n))
      ∧ ChunkService.getChunkCount id w' = (w', inr 0).
Proof.
  destruct (cleanupChunks_run cfg id w) as (w' & E & C & _).
  exists w'. unfold bind at 1. rewrite E.
  rewrite getMissingChunks_eq, getChunkCount_eq.
  unfold missing_chunks. rewrite (no_chunk_indices _ _ C). split; [|done].
  rewrite filter_all; [done|]. intros i. apply negb_true_iff, bool_decide_eq_false.
  apply not_elem_of_nil.
Qed.
